(** * plot-diagram-app: metrics calculator and layout engine of [src/App.js]

    [src/App.js] holds two variants of the same React application:
    - the component [PlotDiagramApp] (inputs object plus a separate [elements]
      object with the parking and staircase toggles), and
    - the component [App] (toggles and staircase fields stored inside the
      inputs object).
    Each variant is embedded in a module of the same name.

    Numbers.  A JavaScript number is modelled as a rational extended with the
    three special values [Infinity], [-Infinity] and [NaN]; every operator
    follows the IEEE 754 rules for these special values (division by zero,
    [Infinity - Infinity], [0 * Infinity], comparisons with [NaN]).  The
    arithmetic is given twice:
    - the operators [add], [sub], [mul] and [div] are exact on finite
      numbers, as the real numbers of the specification are.  The modules
      [PlotDiagramApp] and [App] are written with them; the properties stated
      over these modules are the ones that hold operation for operation,
      whatever the operators round to;
    - the operators [add64], [sub64], [mul64] and [div64] round the exact
      result to the nearest binary64 number, ties to even, with overflow to
      an infinity and gradual underflow, as the operators of JavaScript do.
      The module [Double] holds the metrics calculator and the scale of the
      drawing written with them; the properties that depend on an algebraic
      identity, a bound or the finiteness of a result are stated over it.
    The sign of zero is not modelled. *)

From Stdlib Require Import QArith Qminmax Qabs Qround Qpower Lqa Lia List Ascii.
From stdpp Require Import base option gmap strings.

Local Open Scope Q_scope.

(** ** JavaScript numbers *)

Inductive num : Type :=
| Fin (q : Q)
| PInf
| NInf
| NaN.

(** [a + b] *)
Definition add (a b : num) : num :=
  match a, b with
  | NaN, _ | _, NaN => NaN
  | Fin x, Fin y => Fin (x + y)
  | PInf, NInf | NInf, PInf => NaN
  | PInf, _ | _, PInf => PInf
  | NInf, _ | _, NInf => NInf
  end.

(** [a - b] *)
Definition sub (a b : num) : num :=
  match a, b with
  | NaN, _ | _, NaN => NaN
  | Fin x, Fin y => Fin (x - y)
  | PInf, PInf | NInf, NInf => NaN
  | PInf, _ | _, NInf => PInf
  | NInf, _ | _, PInf => NInf
  end.

(** The product of an infinity and the finite number [q]. *)
Definition inf_times (positive : bool) (q : Q) : num :=
  match q ?= 0 with
  | Eq => NaN
  | Gt => if positive then PInf else NInf
  | Lt => if positive then NInf else PInf
  end.

(** [a * b] *)
Definition mul (a b : num) : num :=
  match a, b with
  | NaN, _ | _, NaN => NaN
  | Fin x, Fin y => Fin (x * y)
  | PInf, Fin y | Fin y, PInf => inf_times true y
  | NInf, Fin y | Fin y, NInf => inf_times false y
  | PInf, PInf | NInf, NInf => PInf
  | PInf, NInf | NInf, PInf => NInf
  end.

(** [a / b].  A finite quotient exists only for a non-zero divisor; [x / 0]
    is [NaN] for [x = 0] and an infinity of the sign of [x] otherwise. *)
Definition div (a b : num) : num :=
  match a, b with
  | NaN, _ | _, NaN => NaN
  | Fin x, Fin y =>
      match y ?= 0 with
      | Eq => match x ?= 0 with Eq => NaN | Gt => PInf | Lt => NInf end
      | _ => Fin (x / y)
      end
  | Fin _, (PInf | NInf) => Fin 0
  | PInf, Fin y => match y ?= 0 with Lt => NInf | _ => PInf end
  | NInf, Fin y => match y ?= 0 with Lt => PInf | _ => NInf end
  | (PInf | NInf), (PInf | NInf) => NaN
  end.

(** [a > b]; false as soon as one side is [NaN]. *)
Definition gt (a b : num) : bool :=
  match a, b with
  | NaN, _ | _, NaN => false
  | Fin x, Fin y => match x ?= y with Gt => true | _ => false end
  | PInf, (Fin _ | NInf) => true
  | Fin _, NInf => true
  | _, _ => false
  end.

(** [a <= b]; false as soon as one side is [NaN]. *)
Definition le (a b : num) : bool :=
  match a, b with
  | NaN, _ | _, NaN => false
  | Fin x, Fin y => match x ?= y with Gt => false | _ => true end
  | NInf, _ => true
  | _, PInf => true
  | _, _ => false
  end.

(** [a >= b] *)
Definition ge (a b : num) : bool := le b a.

(** [Math.max(a, b)] *)
Definition Math_max (a b : num) : num :=
  match a, b with
  | NaN, _ | _, NaN => NaN
  | Fin x, Fin y => Fin (Qmax x y)
  | PInf, _ | _, PInf => PInf
  | NInf, c | c, NInf => c
  end.

(** [Math.min(a, b)] *)
Definition Math_min (a b : num) : num :=
  match a, b with
  | NaN, _ | _, NaN => NaN
  | Fin x, Fin y => Fin (Qmin x y)
  | NInf, _ | _, NInf => NInf
  | PInf, c | c, PInf => c
  end.

(** Truthiness of a number: [0] and [NaN] are falsy. *)
Definition truthy (a : num) : bool :=
  match a with
  | Fin q => match q ?= 0 with Eq => false | _ => true end
  | PInf | NInf => true
  | NaN => false
  end.

(** [a || b] on numbers *)
Definition or_else (a b : num) : num := if truthy a then a else b.

Definition is_finite (a : num) : Prop :=
  match a with Fin _ => True | _ => False end.

(** Two numbers denote the same value. *)
Definition num_eq (a b : num) : Prop :=
  match a, b with
  | Fin x, Fin y => x == y
  | PInf, PInf | NInf, NInf | NaN, NaN => True
  | _, _ => False
  end.

Declare Scope num_scope.
Delimit Scope num_scope with num.
Bind Scope num_scope with num.
Infix "+" := add : num_scope.
Infix "-" := sub : num_scope.
Infix "*" := mul : num_scope.
Infix "/" := div : num_scope.
Infix "=~" := num_eq (at level 70, no associativity) : num_scope.

(** ** JavaScript values held by the state objects *)

Inductive jsval : Type :=
| VNum (n : num)
| VBool (b : bool)
| VUndef.

(** The numeric operators and comparisons apply [ToNumber] to an operand. *)
Definition ToNumber (v : jsval) : num :=
  match v with
  | VNum n => n
  | VBool true => Fin 1
  | VBool false => Fin 0
  | VUndef => NaN
  end.

(** [!v], [v && ...] and conditionals apply [ToBoolean]. *)
Definition ToBoolean (v : jsval) : bool :=
  match v with
  | VNum n => truthy n
  | VBool b => b
  | VUndef => false
  end.

(** A state object is a finite map from property names to values; reading a
    missing property gives [undefined]. *)
Definition prop (o : gmap string jsval) (k : string) : jsval :=
  default VUndef (o !! k).

(** [e.target] of a change event. *)
Record target : Type := Target {
  name : string;
  value : string;
  type : string;
  checked : bool
}.

(** ** The rendered output *)

(** A [<rect>]; [fill] tells the rectangles apart, the other presentation
    attributes are constants and left out. *)
Record rect : Type := Rect {
  x : num;
  y : num;
  width : num;
  height : num;
  fill : string
}.

(** A child of a [<text>] element: literal text or an interpolated value. *)
Inductive piece : Type :=
| Str (s : string)
| Val (v : jsval).

(** A command of a path's [d] attribute. *)
Inductive command : Type :=
| M (px py : num)
| L (px py : num).

Inductive element : Type :=
| ERect (r : rect)
| EText (tx ty : num) (rotate : option (num * num * num)) (children : list piece)
| EPath (d : list command).

(** What [PlotDiagramSVG] returns: the placeholder [<div>] or the [<svg>]
    with its size, the translation of its group and the group's children. *)
Inductive rendered : Type :=
| Placeholder (message : string)
| Svg (svgWidth svgHeight : num) (translate : num * num) (children : list element).

(** The object returned by [calculations]. *)
Record metrics : Type := Metrics {
  plotArea : num;
  totalBUA : num;
  groundCoverage : num;
  far : num;
  buildableWidth : num;
  buildableLength : num
}.

(** The ten fields both variants show as number inputs. *)
Definition number_inputs : list string :=
  ["plotWidth"; "plotLength"; "roadWidth"; "parkingWidth"; "parkingLength";
   "setbackFront"; "setbackBack"; "setbackLeft"; "setbackRight"; "floors"].

(** The fill colours of the parking and of the buildable rectangle. *)
Definition parking_fill : string := "#fef08a".
Definition buildable_fill : string := "#bfdbfe".

(** The drawing primitive set of an output: the children of the [<svg>]
    group; the placeholder has none. *)
Definition primitives (out : rendered) : list element :=
  match out with
  | Svg _ _ _ children => children
  | Placeholder _ => []
  end.

(** [r] is a rectangle of the drawing [out] filled with [colour]. *)
Definition drawn (colour : string) (out : rendered) (r : rect) : Prop :=
  In (ERect r) (primitives out) /\ fill r = colour.

(** The object [o] holds the finite number [q] under the key [k]. *)
Definition holds (o : gmap string jsval) (k : string) (q : Q) : Prop :=
  o !! k = Some (VNum (Fin q)).

(** A value that is a number is [>= 0]. *)
Definition nonneg (v : jsval) : Prop :=
  match v with
  | VNum n => ge n (Fin 0) = true
  | _ => True
  end.

(** Every field of [o] that holds a number holds one that is [>= 0]. *)
Definition nonneg_fields (o : gmap string jsval) : Prop :=
  forall (k : string) (v : jsval), o !! k = Some v -> nonneg v.

(** The field [k] of [o] holds a number, and it is [>= 0]. *)
Definition nonneg_number (o : gmap string jsval) (k : string) : Prop :=
  exists n : num, o !! k = Some (VNum n) /\ ge n (Fin 0) = true.

(** The object [o] holds the finite dimensions read by the metrics
    calculator: plot width and length, the four setbacks and the floor
    count. *)
Definition dimensions (o : gmap string jsval) (W L sF sB sL sR F : Q) : Prop :=
  holds o "plotWidth" W /\ holds o "plotLength" L /\
  holds o "setbackFront" sF /\ holds o "setbackBack" sB /\
  holds o "setbackLeft" sL /\ holds o "setbackRight" sR /\
  holds o "floors" F.

(** ** The formulas of the specification (section 4.1), over the rationals *)

Module Spec.

Record derived : Type := Derived {
  plotArea : Q;
  buildableWidth : Q;
  buildableLength : Q;
  groundFloorArea : Q;
  totalBuiltUpArea : Q;
  groundCoverage : Q;
  floorAreaRatio : Q
}.

Definition metrics (W L sF sB sL sR F : Q) : derived :=
  let plotArea := W * L in
  let buildableWidth := Qmax 0 (W - sL - sR) in
  let buildableLength := Qmax 0 (L - sF - sB) in
  let groundFloorArea := buildableWidth * buildableLength in
  let totalBuiltUpArea := groundFloorArea * F in
  {| plotArea := plotArea;
     buildableWidth := buildableWidth;
     buildableLength := buildableLength;
     groundFloorArea := groundFloorArea;
     totalBuiltUpArea := totalBuiltUpArea;
     groundCoverage :=
       if Qlt_le_dec 0 plotArea then groundFloorArea / plotArea * 100 else 0;
     floorAreaRatio :=
       if Qlt_le_dec 0 plotArea then totalBuiltUpArea / plotArea else 0 |}.

End Spec.

(** ** React's [useMemo] with one dependency

    The cell of the hook keeps the dependency of the last evaluation and the
    value computed for it.  The dependency is an object, compared by
    reference: an object is identified here by the number [id] it received
    when it was created.  On a hit the cached value is returned without
    calling [f]. *)
Definition useMemo {A : Type} (f : gmap string jsval -> A)
    (dep : gmap string jsval) (id : nat) (cell : option (nat * A))
  : A * option (nat * A) :=
  match cell with
  | Some (id', v) =>
      if Nat.eqb id' id then (v, cell) else (f dep, Some (id, f dep))
  | None => (f dep, Some (id, f dep))
  end.

(** ** First variant: component [PlotDiagramApp] *)

Module PlotDiagramApp.

Definition initial_inputs : gmap string jsval :=
  <["plotWidth" := VNum (Fin 30)]> (
  <["plotLength" := VNum (Fin 60)]> (
  <["roadWidth" := VNum (Fin 30)]> (
  <["parkingWidth" := VNum (Fin 18)]> (
  <["parkingLength" := VNum (Fin 18)]> (
  <["setbackFront" := VNum (Fin 10)]> (
  <["setbackBack" := VNum (Fin 5)]> (
  <["setbackLeft" := VNum (Fin 5)]> (
  <["setbackRight" := VNum (Fin 5)]> (
  <["floors" := VNum (Fin 5)]> ∅))))))))).

Definition initial_elements : gmap string jsval :=
  <["parking" := VBool true]> (<["staircase" := VBool false]> ∅).

Section Handlers.
(** The built-in [parseFloat]. *)
Variable parseFloat : string -> num.

(** [setInputs({ ...inputs, [name]: Math.max(0, parseFloat(value) || 0) })] *)
Definition handleChange (inputs : gmap string jsval) (e : target)
  : gmap string jsval :=
  <[name e := VNum (Math_max (Fin 0) (or_else (parseFloat (value e)) (Fin 0)))]>
    inputs.
End Handlers.

(** [setElements({ ...elements, [name]: !elements[name] })] *)
Definition handleToggle (elements : gmap string jsval) (name : string)
  : gmap string jsval :=
  <[name := VBool (negb (ToBoolean (prop elements name)))]> elements.

Definition calculations (inputs : gmap string jsval) : metrics :=
  let plotWidth := ToNumber (prop inputs "plotWidth") in
  let plotLength := ToNumber (prop inputs "plotLength") in
  let setbackLeft := ToNumber (prop inputs "setbackLeft") in
  let setbackRight := ToNumber (prop inputs "setbackRight") in
  let setbackFront := ToNumber (prop inputs "setbackFront") in
  let setbackBack := ToNumber (prop inputs "setbackBack") in
  let floors := ToNumber (prop inputs "floors") in
  let plotArea := (plotWidth * plotLength)%num in
  let buildableWidth := (plotWidth - setbackLeft - setbackRight)%num in
  let buildableLength := (plotLength - setbackFront - setbackBack)%num in
  let validBuildableWidth := Math_max (Fin 0) buildableWidth in
  let validBuildableLength := Math_max (Fin 0) buildableLength in
  let groundFloorArea := (validBuildableWidth * validBuildableLength)%num in
  let totalBUA := (groundFloorArea * floors)%num in
  let groundCoverage :=
    if gt plotArea (Fin 0) then (groundFloorArea / plotArea * Fin 100)%num
    else Fin 0 in
  let far := if gt plotArea (Fin 0) then (totalBUA / plotArea)%num else Fin 0 in
  {| plotArea := plotArea;
     totalBUA := totalBUA;
     groundCoverage := groundCoverage;
     far := far;
     buildableWidth := validBuildableWidth;
     buildableLength := validBuildableLength |}.

Definition PADDING : num := Fin 20.
Definition MAX_SIZE : num := Fin 500.

Definition totalWidthFt (inputs : gmap string jsval) : num :=
  ToNumber (prop inputs "plotWidth").

Definition totalHeightFt (inputs : gmap string jsval) : num :=
  (ToNumber (prop inputs "plotLength") + ToNumber (prop inputs "roadWidth"))%num.

(** The constant [scale] of [PlotDiagramSVG]. *)
Definition scale (inputs : gmap string jsval) : num :=
  Math_min (MAX_SIZE / totalWidthFt inputs)%num (MAX_SIZE / totalHeightFt inputs)%num.

Definition PlotDiagramSVG (inputs : gmap string jsval) (buildable : metrics)
    (elements : gmap string jsval) : rendered :=
  let plotWidth := ToNumber (prop inputs "plotWidth") in
  let plotLength := ToNumber (prop inputs "plotLength") in
  let roadWidth := ToNumber (prop inputs "roadWidth") in
  let setbackFront := ToNumber (prop inputs "setbackFront") in
  let setbackBack := ToNumber (prop inputs "setbackBack") in
  let setbackLeft := ToNumber (prop inputs "setbackLeft") in
  let setbackRight := ToNumber (prop inputs "setbackRight") in
  let parkingWidth := ToNumber (prop inputs "parkingWidth") in
  let parkingLength := ToNumber (prop inputs "parkingLength") in
  let totalWidthFt := totalWidthFt inputs in
  let totalHeightFt := totalHeightFt inputs in
  if le totalWidthFt (Fin 0) || le totalHeightFt (Fin 0) then
    Placeholder "Enter valid dimensions"
  else
    let scale := scale inputs in
    let svgWidth := (totalWidthFt * scale + PADDING * Fin 2)%num in
    let svgHeight := (totalHeightFt * scale + PADDING * Fin 2)%num in
    let pW := (plotWidth * scale)%num in
    let pL := (plotLength * scale)%num in
    let rW := (roadWidth * scale)%num in
    let sF := (setbackFront * scale)%num in
    let sB := (setbackBack * scale)%num in
    let sL := (setbackLeft * scale)%num in
    let sR := (setbackRight * scale)%num in
    let bW := (buildableWidth buildable * scale)%num in
    let bL := (buildableLength buildable * scale)%num in
    let parkW := (parkingWidth * scale)%num in
    let parkL := (parkingLength * scale)%num in
    let parkX := (sL + (bW - parkW) / Fin 2)%num in
    let parkY := (sB + bL - parkL)%num in
    let stairW := (Fin 8 * scale)%num in
    let stairL := (Fin 12 * scale)%num in
    let stairX := (sL + Fin 10)%num in
    let stairY := (sB + Fin 10)%num in
    Svg svgWidth svgHeight (PADDING, PADDING) (
      [ EText (pW - Fin 10)%num (Fin (-5)) None [Str "N"];
        EPath [ M (pW - Fin 10)%num (Fin 0); L (pW - Fin 10)%num (Fin 15);
                M (pW - Fin 10)%num (Fin 0); L (pW - Fin 13)%num (Fin 5);
                M (pW - Fin 10)%num (Fin 0); L (pW - Fin 7)%num (Fin 5) ];
        ERect (Rect (Fin 0) (Fin 0) pW pL "#a7f3d0");
        ERect (Rect (Fin 0) pL pW rW "#e5e7eb");
        EText (pW / Fin 2)%num (pL + rW / Fin 2)%num None
          [Str "Road ("; Val (prop inputs "roadWidth"); Str " ft)"];
        ERect (Rect sL sB bW bL "#bfdbfe");
        EText (sL + bW / Fin 2)%num (sB + bL / Fin 2)%num None
          [Str "Buildable Area"] ]
      ++ (if ToBoolean (prop elements "parking")
             && gt parkingWidth (Fin 0) && gt parkingLength (Fin 0)
          then [ERect (Rect parkX parkY parkW parkL "#fef08a")] else [])
      ++ (if ToBoolean (prop elements "staircase")
          then [ERect (Rect stairX stairY stairW stairL "#f87171")] else [])
      ++ [ EPath [ M (Fin 0) (pL + Fin 15)%num; L pW (pL + Fin 15)%num ];
           EText (pW / Fin 2)%num (pL + Fin 25)%num None
             [Val (prop inputs "plotWidth"); Str " ft"];
           EPath [ M (pW + Fin 15)%num (Fin 0); L (pW + Fin 15)%num pL ];
           EText (pW + Fin 25)%num (pL / Fin 2)%num
             (Some (Fin (-90), (pW + Fin 25)%num, (pL / Fin 2)%num))
             [Val (prop inputs "plotLength"); Str " ft"] ]).

(** The state of a mounted component: the two [useState] objects, the
    identity of the current [inputs] object and the cell of [useMemo]. *)
Record component : Type := Component {
  inputs : gmap string jsval;
  inputs_id : nat;
  elements : gmap string jsval;
  memo : option (nat * metrics)
}.

Definition mount : component :=
  {| inputs := initial_inputs; inputs_id := 0;
     elements := initial_elements; memo := None |}.

(** One evaluation of the component function: the metrics shown in the
    panel, the diagram, and the state with the updated hook cell. *)
Definition render (c : component) : (metrics * rendered) * component :=
  let '(calculations, cell) :=
    useMemo calculations (inputs c) (inputs_id c) (memo c) in
  ((calculations, PlotDiagramSVG (inputs c) calculations (elements c)),
   {| inputs := inputs c; inputs_id := inputs_id c;
      elements := elements c; memo := cell |}).

Inductive event : Type :=
| Change (e : target)
| Toggle (name : string).

(** A handler replaces a state object by a fresh one. *)
Definition handle (parseFloat : string -> num) (c : component) (ev : event)
  : component :=
  match ev with
  | Change e =>
      {| inputs := handleChange parseFloat (inputs c) e;
         inputs_id := S (inputs_id c);
         elements := elements c; memo := memo c |}
  | Toggle name =>
      {| inputs := inputs c; inputs_id := inputs_id c;
         elements := handleToggle (elements c) name; memo := memo c |}
  end.

(** The states a session can be in: renders and handled events in any order. *)
Inductive reachable (parseFloat : string -> num) : component -> Prop :=
| reach_mount : reachable parseFloat mount
| reach_render c :
    reachable parseFloat c -> reachable parseFloat (snd (render c))
| reach_handle c ev :
    reachable parseFloat c -> reachable parseFloat (handle parseFloat c ev).

End PlotDiagramApp.

(** ** Second variant: component [App] *)

Module App.

Definition initial_inputs : gmap string jsval :=
  <["plotWidth" := VNum (Fin 30)]> (
  <["plotLength" := VNum (Fin 60)]> (
  <["roadWidth" := VNum (Fin 30)]> (
  <["parkingWidth" := VNum (Fin 18)]> (
  <["parkingLength" := VNum (Fin 18)]> (
  <["setbackFront" := VNum (Fin 10)]> (
  <["setbackBack" := VNum (Fin 5)]> (
  <["setbackLeft" := VNum (Fin 5)]> (
  <["setbackRight" := VNum (Fin 5)]> (
  <["floors" := VNum (Fin 5)]> (
  <["addParking" := VBool true]> (
  <["addStaircase" := VBool true]> (
  <["stairWidth" := VNum (Fin 6)]> (
  <["stairLength" := VNum (Fin 10)]> (
  <["stairX" := VNum (Fin 0)]> (
  <["stairY" := VNum (Fin 0)]> ∅))))))))))))))).

Section Handlers.
(** The built-in [parseFloat]. *)
Variable parseFloat : string -> num.

(** [setInputs({ ...inputs,
      [name]: type === "checkbox" ? checked
                                  : Math.max(0, parseFloat(value) || 0) })] *)
Definition handleChange (inputs : gmap string jsval) (e : target)
  : gmap string jsval :=
  <[name e :=
      if String.eqb (type e) "checkbox" then VBool (checked e)
      else VNum (Math_max (Fin 0) (or_else (parseFloat (value e)) (Fin 0)))]>
    inputs.
End Handlers.

Definition calculations (inputs : gmap string jsval) : metrics :=
  let plotWidth := ToNumber (prop inputs "plotWidth") in
  let plotLength := ToNumber (prop inputs "plotLength") in
  let setbackLeft := ToNumber (prop inputs "setbackLeft") in
  let setbackRight := ToNumber (prop inputs "setbackRight") in
  let setbackFront := ToNumber (prop inputs "setbackFront") in
  let setbackBack := ToNumber (prop inputs "setbackBack") in
  let floors := ToNumber (prop inputs "floors") in
  let plotArea := (plotWidth * plotLength)%num in
  let buildableWidth := Math_max (Fin 0) (plotWidth - setbackLeft - setbackRight)%num in
  let buildableLength := Math_max (Fin 0) (plotLength - setbackFront - setbackBack)%num in
  let groundFloorArea := (buildableWidth * buildableLength)%num in
  let totalBUA := (groundFloorArea * floors)%num in
  let groundCoverage :=
    if gt plotArea (Fin 0) then (groundFloorArea / plotArea * Fin 100)%num
    else Fin 0 in
  let far := if gt plotArea (Fin 0) then (totalBUA / plotArea)%num else Fin 0 in
  {| plotArea := plotArea;
     totalBUA := totalBUA;
     groundCoverage := groundCoverage;
     far := far;
     buildableWidth := buildableWidth;
     buildableLength := buildableLength |}.

Definition PADDING : num := Fin 20.
Definition MAX_SIZE : num := Fin 500.

Definition totalWidthFt (inputs : gmap string jsval) : num :=
  ToNumber (prop inputs "plotWidth").

Definition totalHeightFt (inputs : gmap string jsval) : num :=
  (ToNumber (prop inputs "plotLength") + ToNumber (prop inputs "roadWidth"))%num.

(** The constant [scale] of [PlotDiagramSVG]. *)
Definition scale (inputs : gmap string jsval) : num :=
  Math_min (MAX_SIZE / totalWidthFt inputs)%num (MAX_SIZE / totalHeightFt inputs)%num.

Definition PlotDiagramSVG (inputs : gmap string jsval) (buildable : metrics)
  : rendered :=
  let plotWidth := ToNumber (prop inputs "plotWidth") in
  let plotLength := ToNumber (prop inputs "plotLength") in
  let roadWidth := ToNumber (prop inputs "roadWidth") in
  let setbackFront := ToNumber (prop inputs "setbackFront") in
  let setbackBack := ToNumber (prop inputs "setbackBack") in
  let setbackLeft := ToNumber (prop inputs "setbackLeft") in
  let setbackRight := ToNumber (prop inputs "setbackRight") in
  let parkingWidth := ToNumber (prop inputs "parkingWidth") in
  let parkingLength := ToNumber (prop inputs "parkingLength") in
  let addParking := prop inputs "addParking" in
  let addStaircase := prop inputs "addStaircase" in
  let stairWidth := ToNumber (prop inputs "stairWidth") in
  let stairLength := ToNumber (prop inputs "stairLength") in
  let stairX := ToNumber (prop inputs "stairX") in
  let stairY := ToNumber (prop inputs "stairY") in
  let totalWidthFt := totalWidthFt inputs in
  let totalHeightFt := totalHeightFt inputs in
  let scale := scale inputs in
  let svgWidth := (totalWidthFt * scale + PADDING * Fin 2)%num in
  let svgHeight := (totalHeightFt * scale + PADDING * Fin 2)%num in
  let pW := (plotWidth * scale)%num in
  let pL := (plotLength * scale)%num in
  let rW := (roadWidth * scale)%num in
  let sF := (setbackFront * scale)%num in
  let sB := (setbackBack * scale)%num in
  let sL := (setbackLeft * scale)%num in
  let sR := (setbackRight * scale)%num in
  let bW := (buildableWidth buildable * scale)%num in
  let bL := (buildableLength buildable * scale)%num in
  Svg svgWidth svgHeight (PADDING, PADDING) (
    [ ERect (Rect (Fin 0) (Fin 0) pW pL "#a7f3d0");
      ERect (Rect (Fin 0) pL pW rW "#e5e7eb");
      EText (pW / Fin 2)%num (pL + rW / Fin 2)%num None
        [Str "Road ("; Val (prop inputs "roadWidth"); Str " ft)"];
      ERect (Rect sL sB bW bL "#bfdbfe");
      EText (sL + bW / Fin 2)%num (sB + bL / Fin 2)%num None
        [Str "Buildable Area"] ]
    ++ (if ToBoolean addParking
           && gt parkingWidth (Fin 0) && gt parkingLength (Fin 0)
        then [ERect (Rect (sL + (bW - parkingWidth * scale) / Fin 2)%num
                          (sB + bL - parkingLength * scale)%num
                          (parkingWidth * scale)%num
                          (parkingLength * scale)%num "#fef08a")]
        else [])
    ++ (if ToBoolean addStaircase
           && gt stairWidth (Fin 0) && gt stairLength (Fin 0)
        then [ERect (Rect (stairX * scale)%num (stairY * scale)%num
                          (stairWidth * scale)%num (stairLength * scale)%num
                          "#f87171")]
        else [])).

(** The state of a mounted component: the [useState] object, its identity
    and the cell of [useMemo]. *)
Record component : Type := Component {
  inputs : gmap string jsval;
  inputs_id : nat;
  memo : option (nat * metrics)
}.

Definition mount : component :=
  {| inputs := initial_inputs; inputs_id := 0; memo := None |}.

(** One evaluation of the component function. *)
Definition render (c : component) : (metrics * rendered) * component :=
  let '(calculations, cell) :=
    useMemo calculations (inputs c) (inputs_id c) (memo c) in
  ((calculations, PlotDiagramSVG (inputs c) calculations),
   {| inputs := inputs c; inputs_id := inputs_id c; memo := cell |}).

(** The only handler, [handleChange], replaces [inputs] by a fresh object. *)
Definition handle (parseFloat : string -> num) (c : component) (e : target)
  : component :=
  {| inputs := handleChange parseFloat (inputs c) e;
     inputs_id := S (inputs_id c);
     memo := memo c |}.

Inductive reachable (parseFloat : string -> num) : component -> Prop :=
| reach_mount : reachable parseFloat mount
| reach_render c :
    reachable parseFloat c -> reachable parseFloat (snd (render c))
| reach_handle c e :
    reachable parseFloat c -> reachable parseFloat (handle parseFloat c e).

(** The change events the rendered widgets emit: a number input exists for
    every key of [inputs] that starts neither with [add] nor with [stair],
    and there are the two checkboxes. *)
Definition checkboxes : list string := ["addParking"; "addStaircase"].

Definition from_widget (e : target) : Prop :=
  (type e = "number" /\ In (name e) number_inputs)
  \/ (type e = "checkbox" /\ In (name e) checkboxes).

(** The fields that hold numbers in the initial object. *)
Definition numeric_fields : list string :=
  number_inputs ++ ["stairWidth"; "stairLength"; "stairX"; "stairY"].

End App.

(** ** Double precision

    The operators of JavaScript return the binary64 number nearest to the
    exact result.  [round64] is this rounding on the rationals; [add64],
    [sub64], [mul64] and [div64] are the rounded operators; the module
    [Double] holds [calculations] and the extents and the scale of
    [PlotDiagramSVG] written with them, operation for operation.  The two
    variants perform the same operations in these computations (they differ
    in the names of local constants only), so that each is embedded once. *)

(** The exponent of the binade of [q > 0]:
    [2 ^ ilog2 q <= q < 2 ^ (ilog2 q + 1)]. *)
Definition ilog2 (q : Q) : Z :=
  let k := (Z.log2 (Qnum q) - Z.log2 (Zpos (Qden q)))%Z in
  if Qle_bool (2 ^ k) q then k else (k - 1)%Z.

(** The integer nearest to [x], ties to even. *)
Definition rne (x : Q) : Z :=
  let f := Qfloor x in
  match Qcompare (x - inject_Z f) (1 # 2) with
  | Lt => f
  | Gt => (f + 1)%Z
  | Eq => if Z.even f then f else (f + 1)%Z
  end.

(** The exponent of the unit in the last place of the binary64 numbers
    around [q]: 53 significant bits, and [-1074] in the subnormal range. *)
Definition exponent (q : Q) : Z := Z.max (ilog2 q - 52) (-1074).

(** The multiple of [2 ^ exponent q] nearest to [q > 0], ties to even. *)
Definition nearest (q : Q) : Q :=
  inject_Z (rne (q / 2 ^ exponent q)) * 2 ^ exponent q.

(** The binary64 number nearest to [q > 0], as a reduced fraction;
    [Infinity] from [2 ^ 1024] on. *)
Definition round_pos (q : Q) : num :=
  if Qle_bool (2 ^ 1024) (nearest q) then PInf else Fin (Qred (nearest q)).

(** [- a] *)
Definition opposite (a : num) : num :=
  match a with
  | Fin q => Fin (- q)
  | PInf => NInf
  | NInf => PInf
  | NaN => NaN
  end.

(** The binary64 number nearest to the rational [q]; the sign of a zero
    result is not kept. *)
Definition round64 (q : Q) : num :=
  match q ?= 0 with
  | Eq => Fin 0
  | Gt => round_pos q
  | Lt => opposite (round_pos (- q))
  end.

(** The rational [q] is a binary64 number. *)
Definition is_double (q : Q) : Prop := (round64 q =~ Fin q)%num.

(** The result of an operator: a finite exact result is rounded, the
    special values are kept. *)
Definition rounded (a : num) : num :=
  match a with
  | Fin q => round64 q
  | _ => a
  end.

Definition add64 (a b : num) : num := rounded (a + b)%num.
Definition sub64 (a b : num) : num := rounded (a - b)%num.
Definition mul64 (a b : num) : num := rounded (a * b)%num.
Definition div64 (a b : num) : num := rounded (a / b)%num.

(** In [double_scope] the four operators are the rounded ones, also in
    their own arguments: every operation of a nested expression rounds. *)
Declare Scope double_scope.
Delimit Scope double_scope with double.
Arguments add64 (a b)%_double.
Arguments sub64 (a b)%_double.
Arguments mul64 (a b)%_double.
Arguments div64 (a b)%_double.
Infix "+" := add64 : double_scope.
Infix "-" := sub64 : double_scope.
Infix "*" := mul64 : double_scope.
Infix "/" := div64 : double_scope.

Module Double.

Definition calculations (inputs : gmap string jsval) : metrics :=
  let plotWidth := ToNumber (prop inputs "plotWidth") in
  let plotLength := ToNumber (prop inputs "plotLength") in
  let setbackLeft := ToNumber (prop inputs "setbackLeft") in
  let setbackRight := ToNumber (prop inputs "setbackRight") in
  let setbackFront := ToNumber (prop inputs "setbackFront") in
  let setbackBack := ToNumber (prop inputs "setbackBack") in
  let floors := ToNumber (prop inputs "floors") in
  let plotArea := (plotWidth * plotLength)%double in
  let buildableWidth := (plotWidth - setbackLeft - setbackRight)%double in
  let buildableLength := (plotLength - setbackFront - setbackBack)%double in
  let validBuildableWidth := Math_max (Fin 0) buildableWidth in
  let validBuildableLength := Math_max (Fin 0) buildableLength in
  let groundFloorArea := (validBuildableWidth * validBuildableLength)%double in
  let totalBUA := (groundFloorArea * floors)%double in
  let groundCoverage :=
    if gt plotArea (Fin 0) then (groundFloorArea / plotArea * Fin 100)%double
    else Fin 0 in
  let far := if gt plotArea (Fin 0) then (totalBUA / plotArea)%double else Fin 0 in
  {| plotArea := plotArea;
     totalBUA := totalBUA;
     groundCoverage := groundCoverage;
     far := far;
     buildableWidth := validBuildableWidth;
     buildableLength := validBuildableLength |}.

Definition MAX_SIZE : num := Fin 500.

Definition totalWidthFt (inputs : gmap string jsval) : num :=
  ToNumber (prop inputs "plotWidth").

Definition totalHeightFt (inputs : gmap string jsval) : num :=
  (ToNumber (prop inputs "plotLength") + ToNumber (prop inputs "roadWidth"))%double.

(** The constant [scale] of [PlotDiagramSVG]. *)
Definition scale (inputs : gmap string jsval) : num :=
  Math_min (MAX_SIZE / totalWidthFt inputs)%double
           (MAX_SIZE / totalHeightFt inputs)%double.

End Double.

(** The magnitude of a normal binary64 number: a positive rational in this
    range is rounded without overflow or underflow. *)
Definition normal (q : Q) : Prop := 2 ^ (-1022) <= q <= 2 ^ 1023.

(** [q] lies between [2 ^ - n] and [2 ^ n]. *)
Definition magnitude (n : Z) (q : Q) : Prop := 2 ^ (- n) <= q <= 2 ^ n.

(** The relative error of one rounding in the normal range, as the factor
    [1 / (1 - 2^-53)]. *)
Definition rounding_factor : Q := 9007199254740992 # 9007199254740991.

(** The computed [v] approximates the exact value [x], which lies between
    [lo > 0] and [hi]: each is at most [e >= 1] times the other. *)
Definition approx (lo hi e x v : Q) : Prop :=
  0 < lo /\ lo <= x <= hi /\ 1 <= e /\ x <= v * e /\ v <= x * e.

(** ** [formatLabel]

    A string is a sequence of ASCII characters, as the field names are; the
    pattern [[A-Z]] and [toUpperCase] are modelled on these. *)

Definition is_upper (c : ascii) : bool :=
  (65 <=? nat_of_ascii c)%nat && (nat_of_ascii c <=? 90)%nat.

Definition is_lower (c : ascii) : bool :=
  (97 <=? nat_of_ascii c)%nat && (nat_of_ascii c <=? 122)%nat.

(** [toUpperCase] on one ASCII character. *)
Definition char_toUpperCase (c : ascii) : ascii :=
  if is_lower c then ascii_of_nat (nat_of_ascii c - 32) else c.

(** [key.replace(/([A-Z])/g, " $1")]: a space before every capital. *)
Fixpoint space_capitals (key : string) : string :=
  match key with
  | EmptyString => EmptyString
  | String c rest =>
      if is_upper c then String " " (String c (space_capitals rest))
      else String c (space_capitals rest)
  end.

(** [result.charAt(0).toUpperCase() + result.slice(1)] *)
Definition capitalize (result : string) : string :=
  match result with
  | EmptyString => EmptyString
  | String c rest => String (char_toUpperCase c) rest
  end.

Definition formatLabel (key : string) : string :=
  String.append (capitalize (space_capitals key)) " (ft)".

(** Every character of [s] is an ASCII character (a code below 128), the
    range on which [char_toUpperCase] is [toUpperCase]. *)
Fixpoint ascii_key (s : string) : Prop :=
  match s with
  | EmptyString => True
  | String c rest => (nat_of_ascii c < 128)%nat /\ ascii_key rest
  end.

(** The number of capitals of [s]. *)
Fixpoint capitals (s : string) : nat :=
  match s with
  | EmptyString => 0
  | String c rest => (if is_upper c then 1 else 0) + capitals rest
  end.

(** ** The form

    [Object.keys(inputs).map(...)] renders one number input per key; the
    second variant skips the keys that start with [add] or [stair] and adds
    its two checkboxes.  The keys are taken as a set: their order on the
    page is not modelled. *)

Definition PlotDiagramApp_number_widgets (inputs : gmap string jsval)
  : gset string :=
  dom inputs.

Definition App_number_widgets (inputs : gmap string jsval) : gset string :=
  filter (fun key => String.prefix "add" key || String.prefix "stair" key = false)
         (dom inputs).

(** The change events the form rendered from [inputs] can emit. *)
Definition PlotDiagramApp_emits (inputs : gmap string jsval) (e : target) : Prop :=
  name e ∈ PlotDiagramApp_number_widgets inputs.

Definition App_emits (inputs : gmap string jsval) (e : target) : Prop :=
  (type e = "number" /\ name e ∈ App_number_widgets inputs)
  \/ (type e = "checkbox" /\ In (name e) App.checkboxes).

(** The inputs a session reaches from the initial ones through the events
    of its own form. *)
Inductive PlotDiagramApp_session (parseFloat : string -> num)
  : gmap string jsval -> Prop :=
| A_session_start : PlotDiagramApp_session parseFloat PlotDiagramApp.initial_inputs
| A_session_change inputs e :
    PlotDiagramApp_session parseFloat inputs ->
    PlotDiagramApp_emits inputs e ->
    PlotDiagramApp_session parseFloat
      (PlotDiagramApp.handleChange parseFloat inputs e).

Inductive App_session (parseFloat : string -> num)
  : gmap string jsval -> Prop :=
| B_session_start : App_session parseFloat App.initial_inputs
| B_session_change inputs e :
    App_session parseFloat inputs ->
    App_emits inputs e ->
    App_session parseFloat (App.handleChange parseFloat inputs e).

(** ** Vocabulary for drawings *)

Definition plot_fill : string := "#a7f3d0".
Definition road_fill : string := "#e5e7eb".
Definition staircase_fill : string := "#f87171".

(** The rectangles of a drawing, in document order. *)
Definition rects (es : list element) : list rect :=
  omap (fun e => match e with ERect r => Some r | _ => None end) es.

(** The object [o] holds the finite dimensions read by the layout engine. *)
Definition layout (o : gmap string jsval) (W L R sF sB sL sR F pw pl : Q) : Prop :=
  dimensions o W L sF sB sL sR F /\
  holds o "roadWidth" R /\
  holds o "parkingWidth" pw /\ holds o "parkingLength" pl.

(** The staircase fields of the second variant. *)
Definition staircase (o : gmap string jsval) (tw tl tx ty : Q) : Prop :=
  holds o "stairWidth" tw /\ holds o "stairLength" tl /\
  holds o "stairX" tx /\ holds o "stairY" ty.

(** [a <= b] on numbers, as a proposition. *)
Definition num_le (a b : num) : Prop := le a b = true.

(** The fields [calculations] reads, and the fields the extents and the
    scale are computed from. *)
Definition metric_fields : list string :=
  ["plotWidth"; "plotLength"; "setbackLeft"; "setbackRight";
   "setbackFront"; "setbackBack"; "floors"].

Definition extent_fields : list string :=
  ["plotWidth"; "plotLength"; "roadWidth"].

(** The elements of a drawing other than the rectangles filled with
    [colour]. *)
Definition is_filled (colour : string) (e : element) : bool :=
  match e with
  | ERect r => String.eqb (fill r) colour
  | _ => false
  end.

Definition without (colour : string) (es : list element) : list element :=
  List.filter (fun e => negb (is_filled colour e)) es.

(** * Properties *)

(** ** Arithmetic on finite numbers *)

Lemma gt_Fin (a b : Q) : gt (Fin a) (Fin b) = true <-> b < a.
Proof.
  simpl. destruct (Qcompare_spec a b); split; intros; try congruence; lra.
Qed.

Lemma gt_Fin_false (a b : Q) : gt (Fin a) (Fin b) = false <-> a <= b.
Proof.
  simpl. destruct (Qcompare_spec a b); split; intros; try congruence; lra.
Qed.

Lemma le_Fin (a b : Q) : le (Fin a) (Fin b) = true <-> a <= b.
Proof.
  simpl. destruct (Qcompare_spec a b); split; intros; try congruence; lra.
Qed.

Lemma le_Fin_false (a b : Q) : le (Fin a) (Fin b) = false <-> b < a.
Proof.
  simpl. destruct (Qcompare_spec a b); split; intros; try congruence; lra.
Qed.

Lemma div_Fin (a b : Q) : ~ b == 0 -> (Fin a / Fin b)%num = Fin (a / b).
Proof.
  intros Hb. simpl. destruct (b ?= 0) eqn:E; try reflexivity.
  apply Qeq_alt in E. contradiction.
Qed.

Lemma div_Fin_pos (a b : Q) : 0 < b -> (Fin a / Fin b)%num = Fin (a / b).
Proof. intros Hb. apply div_Fin. lra. Qed.

(** A division by zero never gives a finite number. *)
Lemma div_by_zero_not_finite (a : num) (b : Q) :
  b == 0 -> ~ is_finite (a / Fin b)%num.
Proof.
  intros Hb. apply Qeq_alt in Hb.
  destruct a as [q| | |]; simpl; try rewrite Hb; try tauto.
  destruct (q ?= 0); tauto.
Qed.

Lemma prop_holds (o : gmap string jsval) (k : string) (q : Q) :
  holds o k q -> ToNumber (prop o k) = Fin q.
Proof. unfold holds, prop. intros ->. reflexivity. Qed.

#[global] Instance num_eq_equiv : Equivalence num_eq.
Proof.
  split.
  - intros [q| | |]; simpl; auto. reflexivity.
  - intros [q| | |] [r| | |]; simpl; auto. intros H; symmetry; exact H.
  - intros [q| | |] [r| | |] [t| | |]; simpl; auto; try tauto.
    intros H1 H2. rewrite H1. exact H2.
Qed.

(** ** Rounding to binary64 *)

Lemma pow2_pos (z : Z) : 0 < 2 ^ z.
Proof. apply Qpower_0_lt. reflexivity. Qed.

Lemma pow2_plus (a b : Z) : 2 ^ (a + b) == 2 ^ a * 2 ^ b.
Proof. apply Qpower_plus. discriminate. Qed.

Lemma pow2_succ (a : Z) : 2 ^ (a + 1) == 2 * 2 ^ a.
Proof. rewrite pow2_plus. change (2 ^ 1) with 2. ring. Qed.

Lemma pow2_le (a b : Z) : (a <= b)%Z -> 2 ^ a <= 2 ^ b.
Proof. intros H. apply Qpower_le_compat_l; [exact H | discriminate]. Qed.

Lemma pow2_lt (a b : Z) : (a < b)%Z -> 2 ^ a < 2 ^ b.
Proof. intros H. apply Qpower_lt_compat_l; [exact H | reflexivity]. Qed.

Lemma pow2_lt_inv (a b : Z) : 2 ^ a < 2 ^ b -> (a < b)%Z.
Proof. intros H. apply (Qpower_lt_compat_l_inv 2); [exact H | reflexivity]. Qed.

Lemma pow2_Z (a : Z) : (0 <= a)%Z -> inject_Z (2 ^ a) == 2 ^ a.
Proof. intros H. apply (Zpower_Qpower 2 a H). Qed.

(** [ilog2 q] is the exponent of the binade of [q]. *)
Lemma ilog2_spec (q : Q) : 0 < q -> 2 ^ ilog2 q <= q < 2 ^ (ilog2 q + 1).
Proof.
  intros Hq. unfold ilog2.
  destruct q as [n d]. cbn [Qnum Qden].
  assert (Hn : (0 < n)%Z).
  { unfold Qlt in Hq. cbn in Hq. lia. }
  set (a := Z.log2 n). set (b := Z.log2 (Zpos d)).
  assert (Ha0 : (0 <= a)%Z) by apply Z.log2_nonneg.
  assert (Hb0 : (0 <= b)%Z) by apply Z.log2_nonneg.
  destruct (Z.log2_spec n Hn) as [Ha1 Ha2]. fold a in Ha1, Ha2.
  destruct (Z.log2_spec (Zpos d) ltac:(lia)) as [Hb1 Hb2]. fold b in Hb1, Hb2.
  assert (Qa1 : 2 ^ a <= inject_Z n).
  { rewrite <- pow2_Z by exact Ha0. rewrite <- Zle_Qle. exact Ha1. }
  assert (Qa2 : inject_Z n < 2 * 2 ^ a).
  { rewrite <- pow2_succ, <- pow2_Z by lia. rewrite <- Zlt_Qlt.
    rewrite <- Z.add_1_r in Ha2. exact Ha2. }
  assert (Qb1 : 2 ^ b <= inject_Z (Zpos d)).
  { rewrite <- pow2_Z by exact Hb0. rewrite <- Zle_Qle. exact Hb1. }
  assert (Qb2 : inject_Z (Zpos d) < 2 * 2 ^ b).
  { rewrite <- pow2_succ, <- pow2_Z by lia. rewrite <- Zlt_Qlt.
    rewrite <- Z.add_1_r in Hb2. exact Hb2. }
  pose proof (pow2_pos a) as Pa. pose proof (pow2_pos b) as Pb.
  assert (Ek : 2 ^ (a - b) * 2 ^ b == 2 ^ a).
  { rewrite <- pow2_plus. replace (a - b + b)%Z with a by lia. reflexivity. }
  pose proof (pow2_pos (a - b)) as Pk.
  assert (Eq' : n # d == inject_Z n / inject_Z (Zpos d)) by apply Qmake_Qdiv.
  assert (Pd : 0 < inject_Z (Zpos d)) by lra.
  set (qn := inject_Z n) in *. set (qd := inject_Z (Zpos d)) in *.
  set (A := 2 ^ a) in *. set (B := 2 ^ b) in *. set (K := 2 ^ (a - b)) in *.
  assert (Elo : K * (1 # 2) < n # d).
  { rewrite Eq'. apply Qlt_shift_div_l; [exact Pd |]. nra. }
  assert (Ehi : n # d < 2 * K).
  { rewrite Eq'. apply Qlt_shift_div_r; [exact Pd |]. nra. }
  destruct (Qle_bool K (n # d)) eqn:E.
  - apply Qle_bool_iff in E. split; [exact E |].
    rewrite pow2_succ. fold K. exact Ehi.
  - assert (Hlt : n # d < K).
    { apply Qnot_le_lt. intros H. apply Qle_bool_iff in H. congruence. }
    replace (a - b - 1 + 1)%Z with (a - b)%Z by lia. fold K.
    split; [| exact Hlt].
    assert (E1 : 2 ^ (a - b - 1) * 2 == K).
    { unfold K. replace (a - b)%Z with (a - b - 1 + 1)%Z at 2 by lia.
      rewrite pow2_succ. ring. }
    pose proof (pow2_pos (a - b - 1)). nra.
Qed.

Lemma ilog2_unique (q : Q) (k : Z) :
  2 ^ k <= q < 2 ^ (k + 1) -> ilog2 q = k.
Proof.
  intros [H1 H2].
  assert (Hq : 0 < q) by (pose proof (pow2_pos k); lra).
  destruct (ilog2_spec q Hq) as [S1 S2].
  assert ((k < ilog2 q + 1)%Z) by (apply pow2_lt_inv; lra).
  assert ((ilog2 q < k + 1)%Z) by (apply pow2_lt_inv; lra).
  lia.
Qed.

Lemma ilog2_monotone (q1 q2 : Q) : 0 < q1 -> q1 <= q2 -> (ilog2 q1 <= ilog2 q2)%Z.
Proof.
  intros H1 H12.
  destruct (ilog2_spec q1 H1) as [A1 A2].
  destruct (ilog2_spec q2 ltac:(lra)) as [B1 B2].
  assert ((ilog2 q1 < ilog2 q2 + 1)%Z) by (apply pow2_lt_inv; lra).
  lia.
Qed.

Lemma ilog2_comp (q1 q2 : Q) : 0 < q1 -> q1 == q2 -> ilog2 q1 = ilog2 q2.
Proof.
  intros H1 E. symmetry. apply ilog2_unique. rewrite <- E.
  apply ilog2_spec. exact H1.
Qed.

(** Rounding to the nearest integer, ties to even. *)
Lemma rne_cases (x : Q) :
  let f := Qfloor x in
  inject_Z f <= x < inject_Z f + 1
  /\ ((rne x = f /\ x - inject_Z f <= 1 # 2)
      \/ (rne x = (f + 1)%Z /\ 1 # 2 <= x - inject_Z f)).
Proof.
  cbv zeta. split.
  - split; [apply Qfloor_le |].
    pose proof (Qlt_floor x) as H. rewrite inject_Z_plus in H. exact H.
  - unfold rne. destruct (Qcompare_spec (x - inject_Z (Qfloor x)) (1 # 2)).
    + destruct (Z.even (Qfloor x)); [left | right]; split; try reflexivity; lra.
    + left. split; [reflexivity | lra].
    + right. split; [reflexivity | lra].
Qed.

Lemma rne_error (x : Q) : - (1 # 2) <= inject_Z (rne x) - x <= 1 # 2.
Proof.
  destruct (rne_cases x) as [[H1 H2] [[-> H] | [-> H]]].
  - lra.
  - rewrite inject_Z_plus. change (inject_Z 1) with 1. lra.
Qed.

Lemma rne_comp (x y : Q) : x == y -> rne x = rne y.
Proof.
  intros E. unfold rne. rewrite (Qfloor_comp x y E).
  assert (E' : x - inject_Z (Qfloor y) == y - inject_Z (Qfloor y)) by (rewrite E; reflexivity).
  rewrite (Qcompare_comp _ _ E' (1 # 2) (1 # 2) (Qeq_refl _)). reflexivity.
Qed.

Lemma rne_Z (z : Z) : rne (inject_Z z) = z.
Proof.
  unfold rne. rewrite Qfloor_Z.
  assert (E : inject_Z z - inject_Z z == 0) by ring.
  rewrite (Qcompare_comp _ _ E (1 # 2) (1 # 2) (Qeq_refl _)). reflexivity.
Qed.

Lemma rne_monotone (x y : Q) : x <= y -> (rne x <= rne y)%Z.
Proof.
  intros Hxy.
  pose proof (Qfloor_resp_le x y Hxy) as Hf.
  destruct (Z.eq_dec (Qfloor x) (Qfloor y)) as [E | Hne].
  - unfold rne. rewrite <- E.
    destruct (Qcompare_spec (x - inject_Z (Qfloor x)) (1 # 2)) as [Ex | Lx | Gx];
      destruct (Qcompare_spec (y - inject_Z (Qfloor x)) (1 # 2)) as [Ey | Ly | Gy];
      try destruct (Z.even (Qfloor x)); try lia; exfalso; lra.
  - destruct (rne_cases x) as [_ Hx]. destruct (rne_cases y) as [_ Hy].
    destruct Hx as [[-> _] | [-> _]]; destruct Hy as [[-> _] | [-> _]]; lia.
Qed.

Lemma rne_le_Z (x : Q) (z : Z) : x <= inject_Z z -> (rne x <= z)%Z.
Proof. intros H. rewrite <- (rne_Z z). apply rne_monotone. exact H. Qed.

Lemma rne_ge_Z (x : Q) (z : Z) : inject_Z z <= x -> (z <= rne x)%Z.
Proof. intros H. rewrite <- (rne_Z z). apply rne_monotone. exact H. Qed.

Lemma exponent_ge (q : Q) : (-1074 <= exponent q)%Z.
Proof. unfold exponent. lia. Qed.

Lemma exponent_monotone (q1 q2 : Q) :
  0 < q1 -> q1 <= q2 -> (exponent q1 <= exponent q2)%Z.
Proof.
  intros H1 H2. unfold exponent.
  pose proof (ilog2_monotone q1 q2 H1 H2). lia.
Qed.

Lemma exponent_comp (q1 q2 : Q) : 0 < q1 -> q1 == q2 -> exponent q1 = exponent q2.
Proof. intros H E. unfold exponent. rewrite (ilog2_comp q1 q2 H E). reflexivity. Qed.

(** Below [2 ^ (exponent q + 53)], and from [2 ^ (exponent q + 52)] on when
    [q] is not subnormal. *)
Lemma exponent_above (q : Q) : 0 < q -> q < 2 ^ (exponent q + 53).
Proof.
  intros Hq. destruct (ilog2_spec q Hq) as [_ H].
  apply Qlt_le_trans with (1 := H). apply pow2_le. unfold exponent. lia.
Qed.

Lemma exponent_below (q : Q) :
  0 < q -> (-1074 < exponent q)%Z -> 2 ^ (exponent q + 52) <= q.
Proof.
  intros Hq He. destruct (ilog2_spec q Hq) as [H _].
  apply Qle_trans with (2 := H). apply pow2_le. unfold exponent in *. lia.
Qed.

Lemma exponent_normal (q : Q) : 2 ^ (-1022) <= q -> exponent q = (ilog2 q - 52)%Z.
Proof.
  intros Hq. assert (H0 : 0 < q) by (pose proof (pow2_pos (-1022)); lra).
  destruct (ilog2_spec q H0) as [_ H].
  assert ((-1022 < ilog2 q + 1)%Z) by (apply pow2_lt_inv; lra).
  unfold exponent. lia.
Qed.

Lemma scaled (q : Q) (e : Z) : q / 2 ^ e * 2 ^ e == q.
Proof. pose proof (pow2_pos e). field. lra. Qed.

Lemma nearest_comp (q1 q2 : Q) : 0 < q1 -> q1 == q2 -> nearest q1 == nearest q2.
Proof.
  intros H E. unfold nearest. rewrite (exponent_comp q1 q2 H E).
  rewrite (rne_comp (q1 / 2 ^ exponent q2) (q2 / 2 ^ exponent q2)).
  - reflexivity.
  - rewrite E. reflexivity.
Qed.

Lemma nearest_error (q : Q) :
  - (2 ^ exponent q / 2) <= nearest q - q <= 2 ^ exponent q / 2.
Proof.
  unfold nearest. set (e := exponent q).
  pose proof (pow2_pos e) as He.
  pose proof (rne_error (q / 2 ^ e)) as [H1 H2].
  pose proof (scaled q e) as Hs.
  set (t := q / 2 ^ e) in *. set (p := 2 ^ e) in *.
  set (r := inject_Z (rne t)) in *.
  assert (A1 : (- (1 # 2)) * p <= (r - t) * p)
    by (apply Qmult_le_compat_r; lra).
  assert (A2 : (r - t) * p <= (1 # 2) * p)
    by (apply Qmult_le_compat_r; lra).
  assert (E : p / 2 == (1 # 2) * p) by field.
  rewrite E. split; lra.
Qed.

Lemma nearest_nonneg (q : Q) : 0 < q -> 0 <= nearest q.
Proof.
  intros Hq. unfold nearest. pose proof (pow2_pos (exponent q)) as He.
  apply Qmult_le_0_compat; [| lra].
  change 0 with (inject_Z 0). rewrite <- Zle_Qle. apply rne_ge_Z.
  change (inject_Z 0) with 0. apply Qle_shift_div_l; [exact He | lra].
Qed.

(** At most 53 significant bits. *)
Lemma nearest_le_top (q : Q) : 0 < q -> nearest q <= 2 ^ (exponent q + 53).
Proof.
  intros Hq. unfold nearest. set (e := exponent q).
  pose proof (pow2_pos e) as He.
  rewrite pow2_plus.
  rewrite (Qmult_comm (2 ^ e)).
  apply Qmult_le_compat_r; [| lra].
  rewrite <- (pow2_Z 53) by lia. rewrite <- Zle_Qle. apply rne_le_Z.
  rewrite (pow2_Z 53) by lia.
  apply Qle_shift_div_r; [exact He |].
  pose proof (exponent_above q Hq) as Ha. fold e in Ha.
  rewrite pow2_plus in Ha. lra.
Qed.

Lemma nearest_ge_bottom (q : Q) :
  0 < q -> (-1074 < exponent q)%Z -> 2 ^ (exponent q + 52) <= nearest q.
Proof.
  intros Hq Hn. unfold nearest. set (e := exponent q).
  pose proof (pow2_pos e) as He.
  rewrite pow2_plus.
  rewrite (Qmult_comm (2 ^ e)).
  apply Qmult_le_compat_r; [| lra].
  rewrite <- (pow2_Z 52) by lia. rewrite <- Zle_Qle. apply rne_ge_Z.
  rewrite (pow2_Z 52) by lia.
  apply Qle_shift_div_l; [exact He |].
  pose proof (exponent_below q Hq Hn) as Ha. fold e in Ha.
  rewrite pow2_plus in Ha. lra.
Qed.

Lemma nearest_monotone (q1 q2 : Q) :
  0 < q1 -> q1 <= q2 -> nearest q1 <= nearest q2.
Proof.
  intros H1 H12.
  assert (H2 : 0 < q2) by lra.
  pose proof (exponent_monotone q1 q2 H1 H12) as He.
  destruct (Z.eq_dec (exponent q1) (exponent q2)) as [E | Hne].
  - unfold nearest. rewrite E. set (e := exponent q2).
    pose proof (pow2_pos e) as Hp.
    apply Qmult_le_compat_r; [| lra].
    rewrite <- Zle_Qle. apply rne_monotone.
    apply Qmult_le_compat_r; [exact H12 |].
    apply Qlt_le_weak, Qinv_lt_0_compat. exact Hp.
  - apply Qle_trans with (2 ^ (exponent q1 + 53)).
    + apply nearest_le_top. exact H1.
    + apply Qle_trans with (2 ^ (exponent q2 + 52)).
      * apply pow2_le. lia.
      * apply nearest_ge_bottom; [exact H2 |].
        pose proof (exponent_ge q1). lia.
Qed.

(** In the normal range the relative error is at most [2 ^ -53]. *)
Lemma nearest_relative (q : Q) :
  2 ^ (-1022) <= q ->
  q * (1 - 2 ^ (-53)) <= nearest q <= q * (1 + 2 ^ (-53)).
Proof.
  intros Hq.
  assert (H0 : 0 < q) by (pose proof (pow2_pos (-1022)); lra).
  pose proof (nearest_error q) as [H1 H2].
  pose proof (exponent_normal q Hq) as He.
  destruct (ilog2_spec q H0) as [Hl _].
  assert (E : 2 ^ exponent q / 2 == 2 ^ ilog2 q * 2 ^ (-53)).
  { rewrite He. replace (ilog2 q - 52)%Z with (ilog2 q + (-53) + 1)%Z by lia.
    rewrite pow2_succ, pow2_plus. field. }
  rewrite E in H1, H2.
  assert (Hu : 0 < 2 ^ (-53)) by apply pow2_pos.
  set (u := 2 ^ (-53)) in *. set (b := 2 ^ ilog2 q) in *.
  split; nra.
Qed.

Lemma le_num_eq (a b a' b' : num) :
  (a =~ a')%num -> (b =~ b')%num -> le a b = true -> le a' b' = true.
Proof.
  destruct a, a', b, b'; simpl; try tauto; try congruence.
  intros Ea Eb H. apply le_Fin. apply le_Fin in H. lra.
Qed.

Lemma le_opposite (a b : num) :
  le a b = true -> le (opposite b) (opposite a) = true.
Proof.
  destruct a, b; simpl; try congruence.
  intros H. apply le_Fin. apply le_Fin in H. lra.
Qed.

Lemma round_pos_cases (q : Q) :
  (round_pos q = PInf /\ 2 ^ 1024 <= nearest q)
  \/ (round_pos q = Fin (Qred (nearest q)) /\ nearest q < 2 ^ 1024).
Proof.
  unfold round_pos. destruct (Qle_bool (2 ^ 1024) (nearest q)) eqn:E.
  - left. split; [reflexivity | apply Qle_bool_iff; exact E].
  - right. split; [reflexivity |].
    apply Qnot_le_lt. intros H. apply Qle_bool_iff in H. congruence.
Qed.

Lemma round_pos_monotone (q1 q2 : Q) :
  0 < q1 -> q1 <= q2 -> le (round_pos q1) (round_pos q2) = true.
Proof.
  intros H1 H12. pose proof (nearest_monotone q1 q2 H1 H12) as Hn.
  destruct (round_pos_cases q1) as [[-> A] | [-> A]];
    destruct (round_pos_cases q2) as [[-> B] | [-> B]].
  - reflexivity.
  - exfalso. lra.
  - reflexivity.
  - apply le_Fin. rewrite !Qred_correct. exact Hn.
Qed.

Lemma round_pos_nonneg (q : Q) : 0 < q -> le (Fin 0) (round_pos q) = true.
Proof.
  intros Hq. destruct (round_pos_cases q) as [[-> _] | [-> _]]; [reflexivity |].
  apply le_Fin. rewrite Qred_correct. apply nearest_nonneg. exact Hq.
Qed.

(** Equal rationals are rounded to the same number. *)
Lemma round_pos_comp (q1 q2 : Q) :
  0 < q1 -> q1 == q2 -> round_pos q1 = round_pos q2.
Proof.
  intros H E. pose proof (nearest_comp q1 q2 H E) as En.
  destruct (round_pos_cases q1) as [[-> A] | [-> A]];
    destruct (round_pos_cases q2) as [[-> B] | [-> B]].
  - reflexivity.
  - exfalso. lra.
  - exfalso. lra.
  - f_equal. apply Qred_complete. exact En.
Qed.

Lemma round64_cases (q : Q) :
  (q == 0 /\ round64 q = Fin 0)
  \/ (0 < q /\ round64 q = round_pos q)
  \/ (q < 0 /\ round64 q = opposite (round_pos (- q))).
Proof.
  unfold round64. destruct (Qcompare_spec q 0); auto.
Qed.

Lemma round64_comp (q1 q2 : Q) : q1 == q2 -> round64 q1 = round64 q2.
Proof.
  intros E.
  destruct (round64_cases q1) as [[A ->] | [[A ->] | [A ->]]];
    destruct (round64_cases q2) as [[B ->] | [[B ->] | [B ->]]];
    try (exfalso; lra).
  - reflexivity.
  - apply round_pos_comp; assumption.
  - f_equal. apply round_pos_comp; [lra | rewrite E; reflexivity].
Qed.

Lemma num_le_trans (a b c : num) : le a b = true -> le b c = true -> le a c = true.
Proof.
  destruct a, b, c; simpl; try congruence.
  intros H1 H2. apply le_Fin. apply le_Fin in H1. apply le_Fin in H2. lra.
Qed.

Lemma round64_sign (q : Q) :
  (0 <= q -> le (Fin 0) (round64 q) = true)
  /\ (q <= 0 -> le (round64 q) (Fin 0) = true).
Proof.
  destruct (round64_cases q) as [[A ->] | [[A ->] | [A ->]]].
  - split; reflexivity.
  - split; intros H; [| exfalso; lra]. apply round_pos_nonneg. exact A.
  - split; intros H; [exfalso; lra |].
    apply (le_opposite (Fin 0)). apply round_pos_nonneg. lra.
Qed.

(** Rounding is monotone. *)
Lemma round64_monotone (q1 q2 : Q) :
  q1 <= q2 -> le (round64 q1) (round64 q2) = true.
Proof.
  intros H.
  destruct (Qlt_le_dec 0 q1) as [P1 | N1].
  - destruct (round64_cases q1) as [[A _] | [[_ ->] | [A _]]]; try (exfalso; lra).
    destruct (round64_cases q2) as [[B _] | [[_ ->] | [B _]]]; try (exfalso; lra).
    apply round_pos_monotone; assumption.
  - destruct (Qlt_le_dec q2 0) as [N2 | P2].
    + destruct (round64_cases q1) as [[A _] | [[A _] | [_ ->]]]; try (exfalso; lra).
      destruct (round64_cases q2) as [[B _] | [[B _] | [_ ->]]]; try (exfalso; lra).
      apply le_opposite. apply round_pos_monotone; lra.
    + apply num_le_trans with (Fin 0).
      * apply round64_sign. exact N1.
      * apply round64_sign. exact P2.
Qed.

(** Rounding stays between two binary64 numbers that enclose the exact
    value. *)
Lemma round64_between (lo hi q : Q) :
  is_double lo -> is_double hi -> lo <= q <= hi ->
  exists v : Q, round64 q = Fin v /\ lo <= v <= hi.
Proof.
  intros Hlo Hhi [H1 H2].
  pose proof (round64_monotone lo q H1) as A.
  pose proof (round64_monotone q hi H2) as B.
  unfold is_double in *.
  destruct (round64 lo), (round64 hi); simpl in Hlo, Hhi; try tauto.
  destruct (round64 q) as [v | | |]; simpl in A, B; try congruence.
  exists v. split; [reflexivity |].
  apply le_Fin in A. apply le_Fin in B. lra.
Qed.

(** Between [2 ^ -1022] and [2 ^ 1023] the result is finite, with a relative
    error of at most [2 ^ -53]. *)
Lemma round64_relative (q : Q) :
  2 ^ (-1022) <= q <= 2 ^ 1023 ->
  exists v : Q,
    round64 q = Fin v /\ q * (1 - 2 ^ (-53)) <= v <= q * (1 + 2 ^ (-53)).
Proof.
  intros [H1 H2].
  assert (H0 : 0 < q) by (pose proof (pow2_pos (-1022)); lra).
  pose proof (nearest_relative q H1) as [A B].
  destruct (round64_cases q) as [[C _] | [[_ ->] | [C _]]]; try (exfalso; lra).
  destruct (round_pos_cases q) as [[_ D] | [-> D]].
  - exfalso.
    assert (E : 2 ^ 1024 == 2 * 2 ^ 1023) by (rewrite <- pow2_succ; reflexivity).
    assert (U : 2 ^ (-53) < 1) by (apply (pow2_lt (-53) 0); lia).
    assert (P : 0 < 2 ^ (-53)) by apply pow2_pos.
    set (u := 2 ^ (-53)) in *. set (t := 2 ^ 1023) in *. set (T := 2 ^ 1024) in *.
    nra.
  - exists (Qred (nearest q)). split; [reflexivity |].
    rewrite Qred_correct. split; assumption.
Qed.

(** ** The rounded operators on finite numbers *)

(** Split a conjunction of closed statements and evaluate each. *)
Ltac compute_all :=
  repeat match goal with |- _ /\ _ => split end;
  vm_compute;
  repeat match goal with |- _ /\ _ => split end;
  reflexivity.

Lemma Double_add_Fin (a b : Q) : (Fin a + Fin b)%double = round64 (a + b).
Proof. reflexivity. Qed.

Lemma Double_sub_Fin (a b : Q) : (Fin a - Fin b)%double = round64 (a - b).
Proof. reflexivity. Qed.

Lemma Double_mul_Fin (a b : Q) : (Fin a * Fin b)%double = round64 (a * b).
Proof. reflexivity. Qed.

Lemma Double_div_Fin (a b : Q) : 0 < b -> (Fin a / Fin b)%double = round64 (a / b).
Proof. intros Hb. unfold div64. rewrite div_Fin_pos by exact Hb. reflexivity. Qed.

Lemma is_double_0 : is_double 0.
Proof. vm_compute. reflexivity. Qed.

Lemma is_double_1 : is_double 1.
Proof. vm_compute. reflexivity. Qed.

Lemma is_double_100 : is_double 100.
Proof. vm_compute. reflexivity. Qed.

(** Some values: the binary64 numbers nearest to 0.1 and to 1/3, the
    largest finite one and the overflow threshold, and ties to even at the
    smallest subnormal numbers. *)
Example round64_values :
  (round64 (1 # 10) =~ Fin (3602879701896397 # 2 ^ 55))%num
  /\ (round64 (1 # 3) =~ Fin (6004799503160661 # 2 ^ 54))%num
  /\ (round64 (2 ^ 1024 - 2 ^ 970 - 1) =~ Fin (2 ^ 1024 - 2 ^ 971))%num
  /\ round64 (2 ^ 1024 - 2 ^ 970) = PInf
  /\ (round64 (2 ^ (-1075)) =~ Fin 0)%num
  /\ (round64 (3 * 2 ^ (-1075)) =~ Fin (2 ^ (-1073)))%num.
Proof. compute_all. Qed.

(** A finite number between two others, seen through [le]. *)
Lemma le_between (a : num) (lo hi : Q) :
  le (Fin lo) a = true -> le a (Fin hi) = true ->
  exists v : Q, a = Fin v /\ lo <= v <= hi.
Proof.
  destruct a as [v | | |]; simpl; try congruence.
  intros H1 H2. exists v. split; [reflexivity |].
  apply (le_Fin lo v) in H1. apply (le_Fin v hi) in H2. lra.
Qed.

(** A closed inequality between rationals, by evaluation. *)
Ltac evaluate := vm_compute; first [reflexivity | discriminate].

Lemma round64_zero (q : Q) : q == 0 -> round64 q = Fin 0.
Proof. intros E. rewrite (round64_comp q 0 E). reflexivity. Qed.

(** A zero footprint or coverage stays zero through the products and
    quotients of the calculator. *)
Lemma Double_zero_mul (F : Q) : (Fin 0 * Fin F)%double = Fin 0.
Proof. rewrite Double_mul_Fin. apply round64_zero. ring. Qed.

Lemma Double_zero_div (a : num) :
  gt a (Fin 0) = true -> (Fin 0 / a)%double = Fin 0.
Proof.
  destruct a as [p | | |]; simpl; try congruence.
  - intros H. apply (gt_Fin p 0) in H. rewrite Double_div_Fin by exact H.
    apply round64_zero. field. lra.
  - reflexivity.
Qed.

(** ** Accumulated rounding errors *)

Lemma approx_exact (lo hi x : Q) :
  0 < lo -> lo <= x <= hi -> approx lo hi 1 x x.
Proof. intros H0 H. unfold approx. repeat split; try lra. Qed.

Lemma approx_magnitude (n : Z) (x : Q) :
  magnitude n x -> approx (2 ^ (- n)) (2 ^ n) 1 x x.
Proof. intros H. apply approx_exact; [apply pow2_pos | exact H]. Qed.

Lemma approx_positive (lo hi e x v : Q) : approx lo hi e x v -> 0 < x /\ 0 < v.
Proof.
  intros (H0 & [H1 H2] & He & Hx & Hv). split; [lra | nra].
Qed.

Lemma approx_comp (lo hi e x x' v : Q) :
  x == x' -> approx lo hi e x v -> approx lo hi e x' v.
Proof. unfold approx. intros <-. tauto. Qed.

Lemma approx_mul (l1 h1 e1 x a l2 h2 e2 y b : Q) :
  approx l1 h1 e1 x a -> approx l2 h2 e2 y b ->
  approx (l1 * l2) (h1 * h2) (e1 * e2) (x * y) (a * b).
Proof.
  intros A B.
  destruct (approx_positive _ _ _ _ _ A) as [Px Pa].
  destruct (approx_positive _ _ _ _ _ B) as [Py Pb].
  destruct A as (A0 & [A1 A2] & Ae & Ax & Av).
  destruct B as (B0 & [B1 B2] & Be & Bx & Bv).
  unfold approx. repeat split; try nra.
Qed.

Lemma approx_div (l1 h1 e1 x a l2 h2 e2 y b : Q) :
  approx l1 h1 e1 x a -> approx l2 h2 e2 y b ->
  approx (l1 / h2) (h1 / l2) (e1 * e2) (x / y) (a / b).
Proof.
  intros A B.
  destruct (approx_positive _ _ _ _ _ A) as [Px Pa].
  destruct (approx_positive _ _ _ _ _ B) as [Py Pb].
  destruct A as (A0 & [A1 A2] & Ae & Ax & Av).
  destruct B as (B0 & [B1 B2] & Be & Bx & Bv).
  assert (Ph : 0 < h2) by lra.
  unfold approx. split; [apply Qlt_shift_div_l; lra |].
  split; [split |]; [| | split; [nra | split]].
  - apply Qle_shift_div_l; [exact Py |].
    assert (E : l1 / h2 * y == l1 * (y / h2)) by (field; lra). rewrite E.
    assert (y / h2 <= 1) by (apply Qle_shift_div_r; lra). nra.
  - apply Qle_shift_div_r; [exact Py |].
    assert (E : h1 / l2 * y == h1 * (y / l2)) by (field; lra). rewrite E.
    assert (1 <= y / l2) by (apply Qle_shift_div_l; lra). nra.
  - apply Qle_shift_div_r; [exact Py |].
    assert (E : a / b * (e1 * e2) * y == (a * e1) * (y * e2 / b))
      by (field; lra). rewrite E.
    assert (1 <= y * e2 / b) by (apply Qle_shift_div_l; lra). nra.
  - apply Qle_shift_div_r; [exact Pb |].
    assert (E : x / y * (e1 * e2) * b == (x * e1) * (b * e2 / y))
      by (field; lra). rewrite E.
    assert (1 <= b * e2 / y) by (apply Qle_shift_div_l; lra). nra.
Qed.

Lemma rounding_factor_spec :
  1 <= rounding_factor
  /\ rounding_factor * (1 - 2 ^ (-53)) == 1
  /\ 1 + 2 ^ (-53) <= rounding_factor.
Proof. split; [| split]; vm_compute; reflexivity || discriminate. Qed.

(** One more rounding, in the normal range. *)
Lemma approx_round (lo hi e x q : Q) :
  approx lo hi e x q ->
  2 ^ (-1022) * e <= lo -> hi * e <= 2 ^ 1023 ->
  exists v : Q, round64 q = Fin v /\ approx lo hi (e * rounding_factor) x v.
Proof.
  intros A Hlo Hhi.
  destruct (approx_positive _ _ _ _ _ A) as [Px Pq].
  destruct A as (A0 & [A1 A2] & Ae & Ax & Av).
  destruct rounding_factor_spec as (R1 & R2 & R3).
  pose proof (pow2_pos (-1022)) as Pm.
  pose proof (pow2_pos (-53)) as Pu.
  set (r := rounding_factor) in *. set (u := 2 ^ (-53)) in *.
  set (tiny := 2 ^ (-1022)) in *. set (huge := 2 ^ 1023) in *.
  assert (N : tiny <= q <= huge) by (split; nra).
  destruct (round64_relative q N) as (v & Ev & [V1 V2]). fold u in V1, V2.
  exists v. split; [exact Ev |].
  assert (Hqv : q <= v * r) by nra.
  assert (Hvq : v <= q * r) by nra.
  unfold approx. repeat split; try lra; nra.
Qed.

(** Two approximations of the same value are close to each other. *)
Lemma approx_close (l1 h1 e1 l2 h2 e2 x a b bound : Q) :
  approx l1 h1 e1 x a -> approx l2 h2 e2 x b ->
  e1 * e2 * (e1 * e2 - 1) <= bound ->
  0 < b /\ Qabs (a - b) <= b * bound.
Proof.
  intros A B Hb.
  destruct (approx_positive _ _ _ _ _ A) as [Px Pa].
  destruct (approx_positive _ _ _ _ _ B) as [_ Pb].
  destruct A as (A0 & [A1 A2] & Ae & Ax & Av).
  destruct B as (B0 & [B1 B2] & Be & Bx & Bv).
  split; [exact Pb |].
  set (E := e1 * e2) in *.
  assert (HE : 1 <= E) by (unfold E; nra).
  assert (Hab : a <= b * E) by (unfold E; nra).
  assert (Hba : b <= a * E) by (unfold E; nra).
  assert (Hbb : b * (E * (E - 1)) <= b * bound) by nra.
  apply Qabs_Qle_condition. split; nra.
Qed.

(** ** The metrics calculator *)

(** Both variants compute the same metrics. *)
Lemma calculations_same (inputs : gmap string jsval) :
  App.calculations inputs = PlotDiagramApp.calculations inputs.
Proof. reflexivity. Qed.

Section Metrics.

Variables (inputs : gmap string jsval) (W L sF sB sL sR F : Q).
Hypothesis Hdim : dimensions inputs W L sF sB sL sR F.

(** On finite dimensions the calculator returns the values of the
    specification's formulas; none of its divisions has a zero divisor. *)
Lemma calculations_refines :
  PlotDiagramApp.calculations inputs =
  let d := Spec.metrics W L sF sB sL sR F in
  {| plotArea := Fin (Spec.plotArea d);
     totalBUA := Fin (Spec.totalBuiltUpArea d);
     groundCoverage := Fin (Spec.groundCoverage d);
     far := Fin (Spec.floorAreaRatio d);
     buildableWidth := Fin (Spec.buildableWidth d);
     buildableLength := Fin (Spec.buildableLength d) |}.
Proof.
  destruct Hdim as (HW & HL & HsF & HsB & HsL & HsR & HF).
  unfold PlotDiagramApp.calculations.
  rewrite (prop_holds _ _ _ HW), (prop_holds _ _ _ HL), (prop_holds _ _ _ HsF),
    (prop_holds _ _ _ HsB), (prop_holds _ _ _ HsL), (prop_holds _ _ _ HsR),
    (prop_holds _ _ _ HF).
  cbn [mul sub Math_max Spec.metrics Spec.plotArea Spec.totalBuiltUpArea
       Spec.groundCoverage Spec.floorAreaRatio Spec.buildableWidth
       Spec.buildableLength].
  destruct (Qlt_le_dec 0 (W * L)) as [Hpos | Hnpos].
  - rewrite (proj2 (gt_Fin _ _) Hpos).
    rewrite !div_Fin_pos by exact Hpos. reflexivity.
  - rewrite (proj2 (gt_Fin_false _ _) Hnpos). reflexivity.
Qed.

End Metrics.

(** Reduce a statement about the metrics [m] of either variant to the
    values of the specification's formulas. *)
Ltac by_refinement Hdim Hm :=
  match type of Hm with
  | ?m = PlotDiagramApp.calculations ?i \/ ?m = App.calculations ?i =>
      let E := fresh "E" in
      assert (E : m = PlotDiagramApp.calculations i)
        by (destruct Hm as [-> | ->]; reflexivity);
      rewrite E, (calculations_refines _ _ _ _ _ _ _ _ Hdim); clear E Hm;
      cbn [plotArea buildableWidth buildableLength totalBUA groundCoverage far
           Spec.metrics Spec.plotArea Spec.totalBuiltUpArea
           Spec.groundCoverage Spec.floorAreaRatio Spec.buildableWidth
           Spec.buildableLength]
  end.



(** C5.  When the plot area is 0 the calculator of either variant returns
    groundCoverage = 0 and floorAreaRatio = 0, and all of its results are
    finite numbers: the division by the plot area, which could only give
    [NaN] or an infinity, is not evaluated.  With plot width 0 and plot
    length 60 entered in the initial inputs, plotArea, groundCoverage and
    floorAreaRatio are 0. *)
Theorem C5_zero_plot_area :
  (forall (inputs : gmap string jsval) (W L sF sB sL sR F : Q) (m : metrics),
      dimensions inputs W L sF sB sL sR F ->
      m = PlotDiagramApp.calculations inputs \/ m = App.calculations inputs ->
      W * L == 0 ->
      groundCoverage m = Fin 0 /\ far m = Fin 0 /\
      is_finite (plotArea m) /\ is_finite (totalBUA m) /\
      is_finite (buildableWidth m) /\ is_finite (buildableLength m) /\
      (forall a : num, ~ is_finite (a / plotArea m)%num))
  /\ (forall m : metrics,
        m = PlotDiagramApp.calculations
              (<["plotWidth" := VNum (Fin 0)]> PlotDiagramApp.initial_inputs)
        \/ m = App.calculations
                 (<["plotWidth" := VNum (Fin 0)]> App.initial_inputs) ->
        (plotArea m =~ Fin 0)%num /\
        groundCoverage m = Fin 0 /\ far m = Fin 0).
Proof.
  split.
  - intros inputs W L sF sB sL sR F m Hdim Hm Hzero.
    by_refinement Hdim Hm.
    destruct (Qlt_le_dec 0 (W * L)) as [Hpos | _]; [lra |].
    repeat split; auto.
    intros a. apply div_by_zero_not_finite. exact Hzero.
  - intros m [-> | ->]; vm_compute; repeat split; reflexivity.
Qed.

Lemma C5_witness :
  groundCoverage
    (PlotDiagramApp.calculations
       (<["plotLength" := VNum (Fin 0)]> PlotDiagramApp.initial_inputs)) = Fin 0.
Proof.
  apply (proj1 C5_zero_plot_area
           (<["plotLength" := VNum (Fin 0)]> PlotDiagramApp.initial_inputs)
           30 0 10 5 5 5 5).
  - repeat split.
  - left; reflexivity.
  - reflexivity.
Defined.

(** C6.  For every input set of finite numbers the calculator of either
    variant returns buildableWidth >= 0 and buildableLength >= 0, whatever
    the setbacks; the footprint multiplied into totalBuiltUpArea is the
    product of the two clamped values, so it is 0 as soon as one raw
    difference is negative, also when both are.  With setbackLeft = 20,
    setbackRight = 20 and width 30, buildableWidth is 0. *)
Theorem C6_buildable_never_negative :
  (forall (inputs : gmap string jsval) (W L sF sB sL sR F : Q) (m : metrics),
      dimensions inputs W L sF sB sL sR F ->
      m = PlotDiagramApp.calculations inputs \/ m = App.calculations inputs ->
      exists bw bl : Q,
        buildableWidth m = Fin bw /\ buildableLength m = Fin bl /\
        0 <= bw /\ 0 <= bl /\
        totalBUA m = Fin (bw * bl * F) /\ 0 <= bw * bl /\
        (W - sL - sR < 0 -> bw == 0 /\ bw * bl == 0) /\
        (L - sF - sB < 0 -> bl == 0 /\ bw * bl == 0))
  /\ (forall (inputs : gmap string jsval) (L sF sB F : Q) (m : metrics),
        dimensions inputs 30 L sF sB 20 20 F ->
        m = PlotDiagramApp.calculations inputs \/ m = App.calculations inputs ->
        (buildableWidth m =~ Fin 0)%num).
Proof.
  split.
  - intros inputs W L sF sB sL sR F m Hdim Hm.
    by_refinement Hdim Hm.
    exists (Qmax 0 (W - sL - sR)), (Qmax 0 (L - sF - sB)).
    pose proof (Q.le_max_l 0 (W - sL - sR)) as Hw.
    pose proof (Q.le_max_l 0 (L - sF - sB)) as Hl.
    repeat split; auto.
    + apply Qmult_le_0_compat; assumption.
    + rewrite Q.max_l by lra. reflexivity.
    + rewrite (Q.max_l 0 (W - sL - sR)) by lra. ring.
    + rewrite Q.max_l by lra. reflexivity.
    + rewrite (Q.max_l 0 (L - sF - sB)) by lra. ring.
  - intros inputs L sF sB F m Hdim Hm.
    by_refinement Hdim Hm. simpl. reflexivity.
Qed.

Lemma C6_witness :
  exists bw bl : Q,
    buildableWidth (App.calculations
                      (<["setbackLeft" := VNum (Fin 40)]> App.initial_inputs))
    = Fin bw /\
    buildableLength (App.calculations
                       (<["setbackLeft" := VNum (Fin 40)]> App.initial_inputs))
    = Fin bl /\ 0 <= bw /\ 0 <= bl.
Proof.
  destruct (proj1 C6_buildable_never_negative
              (<["setbackLeft" := VNum (Fin 40)]> App.initial_inputs)
              30 60 10 5 40 5 5 _ ltac:(repeat split) (or_intror eq_refl))
    as (bw & bl & H1 & H2 & H3 & H4 & _).
  exists bw, bl. repeat split; assumption.
Defined.

(** ** The metrics calculator in double precision *)

(** Subtracting a setback from a number that is at most the binary64
    number [hi] gives a number that is at most [hi]. *)
Lemma Double_sub_le (a : num) (s hi : Q) :
  is_double hi -> 0 <= s -> le a (Fin hi) = true ->
  le (a - Fin s)%double (Fin hi) = true.
Proof.
  intros Hhi Hs Ha. destruct a as [v | | |]; simpl in Ha; try congruence.
  - rewrite Double_sub_Fin. apply (le_Fin v hi) in Ha.
    apply (le_num_eq (round64 (v - s)) (round64 hi)).
    + reflexivity.
    + exact Hhi.
    + apply round64_monotone. lra.
  - reflexivity.
Qed.

(** The clamped difference of a non-negative binary64 extent and two
    non-negative setbacks lies between 0 and the extent, also after
    rounding. *)
Lemma Double_clamp_bounds (e s1 s2 : Q) :
  is_double e -> 0 <= e -> 0 <= s1 -> 0 <= s2 ->
  exists v : Q,
    Math_max (Fin 0) (Fin e - Fin s1 - Fin s2)%double = Fin v /\ 0 <= v <= e.
Proof.
  intros He H0 H1 H2.
  assert (H : le (Fin e - Fin s1 - Fin s2)%double (Fin e) = true).
  { apply Double_sub_le; [exact He | exact H2 |].
    apply Double_sub_le; [exact He | exact H1 |].
    apply le_Fin. lra. }
  destruct (Fin e - Fin s1 - Fin s2)%double as [v | | |];
    simpl in H; try congruence.
  - exists (Qmax 0 v). split; [reflexivity |].
    apply (le_Fin v e) in H. split; [apply Q.le_max_l | apply Q.max_lub; lra].
  - exists 0. split; [reflexivity | lra].
Qed.

(** The calculator on an object that holds finite dimensions. *)
Lemma Double_calculations_holds (inputs : gmap string jsval)
    (W L sF sB sL sR F : Q) :
  dimensions inputs W L sF sB sL sR F ->
  Double.calculations inputs =
  let plotArea := (Fin W * Fin L)%double in
  let bw := Math_max (Fin 0) (Fin W - Fin sL - Fin sR)%double in
  let bl := Math_max (Fin 0) (Fin L - Fin sF - Fin sB)%double in
  let groundFloorArea := (bw * bl)%double in
  let totalBUA := (groundFloorArea * Fin F)%double in
  {| plotArea := plotArea;
     totalBUA := totalBUA;
     groundCoverage :=
       if gt plotArea (Fin 0) then (groundFloorArea / plotArea * Fin 100)%double
       else Fin 0;
     far := if gt plotArea (Fin 0) then (totalBUA / plotArea)%double else Fin 0;
     buildableWidth := bw;
     buildableLength := bl |}.
Proof.
  intros (HW & HL & HsF & HsB & HsL & HsR & HF).
  unfold Double.calculations.
  rewrite (prop_holds _ _ _ HW), (prop_holds _ _ _ HL), (prop_holds _ _ _ HsF),
    (prop_holds _ _ _ HsB), (prop_holds _ _ _ HsL), (prop_holds _ _ _ HsR),
    (prop_holds _ _ _ HF).
  reflexivity.
Qed.

(** Ground coverage and floor area ratio in terms of the returned fields. *)
Lemma Double_calculations_fields (inputs : gmap string jsval) :
  let m := Double.calculations inputs in
  let groundFloorArea := (buildableWidth m * buildableLength m)%double in
  totalBUA m = (groundFloorArea * ToNumber (prop inputs "floors"))%double
  /\ groundCoverage m =
       (if gt (plotArea m) (Fin 0)
        then (groundFloorArea / plotArea m * Fin 100)%double else Fin 0)
  /\ far m =
       (if gt (plotArea m) (Fin 0) then (totalBUA m / plotArea m)%double
        else Fin 0).
Proof. repeat split. Qed.

(** The footprint is at most the plot area, and the coverage at most 100. *)
Lemma Double_coverage_bounds (W L bw bl p : Q) :
  0 <= bw <= W -> 0 <= bl <= L ->
  (Fin W * Fin L)%double = Fin p ->
  exists g c : Q,
    (Fin bw * Fin bl)%double = Fin g /\ 0 <= g <= p /\
    (if gt (Fin p) (Fin 0) then (Fin g / Fin p * Fin 100)%double else Fin 0)
    = Fin c /\ 0 <= c <= 100.
Proof.
  intros [Hw0 Hw1] [Hl0 Hl1] Hp.
  assert (Hg0 : 0 <= bw * bl) by (apply Qmult_le_0_compat; assumption).
  assert (Hg1 : bw * bl <= W * L).
  { apply Qle_trans with (W * bl).
    - apply Qmult_le_compat_r; assumption.
    - rewrite (Qmult_comm W bl), (Qmult_comm W L).
      apply Qmult_le_compat_r; [assumption | lra]. }
  rewrite Double_mul_Fin in Hp.
  destruct (le_between (round64 (bw * bl)) 0 p) as (g & Eg & Hg).
  { apply (proj1 (round64_sign (bw * bl))). exact Hg0. }
  { rewrite <- Hp. apply round64_monotone. exact Hg1. }
  exists g. rewrite Double_mul_Fin, Eg.
  destruct (gt (Fin p) (Fin 0)) eqn:Hpos.
  - apply gt_Fin in Hpos.
    rewrite Double_div_Fin by exact Hpos.
    destruct (round64_between 0 1 (g / p) is_double_0 is_double_1)
      as (c1 & -> & Hc1).
    { split; [apply Qle_shift_div_l; lra | apply Qle_shift_div_r; lra]. }
    rewrite Double_mul_Fin.
    destruct (round64_between 0 100 (c1 * 100) is_double_0 is_double_100)
      as (c & -> & Hc); [lra |].
    exists c. repeat split; try reflexivity; lra.
  - exists 0. repeat split; try reflexivity; lra.
Qed.




(** Counterexample to C10 as stated.  In double precision the ground
    coverage can be [NaN]: on a plot of 2^512 by 2^512 the plot area and the
    footprint overflow to [Infinity], and their quotient is [NaN], which is
    not [<= 100]. *)
Lemma C10_counterexample :
  let inputs :=
    <["plotWidth" := VNum (Fin (2 ^ 512))]> (
    <["plotLength" := VNum (Fin (2 ^ 512))]> App.initial_inputs) in
  let m := Double.calculations inputs in
  dimensions inputs (2 ^ 512) (2 ^ 512) 10 5 5 5 5
  /\ is_double (2 ^ 512)
  /\ plotArea m = PInf
  /\ (buildableWidth m * buildableLength m)%double = PInf
  /\ groundCoverage m = NaN
  /\ le (groundCoverage m) (Fin 100) = false.
Proof.
  cbv zeta. compute_all.
Qed.

(** C10.  For every input set of non-negative binary64 numbers whose plot
    area does not overflow, the calculator returns, in double precision, a
    ground coverage between 0 and 100: buildable width and length lie
    between 0 and the plot width and length, and the footprint between 0
    and the plot area. *)
Theorem C10_coverage_at_most_100 :
  forall (inputs : gmap string jsval) (W L sF sB sL sR F : Q) (m : metrics),
    dimensions inputs W L sF sB sL sR F ->
    m = Double.calculations inputs ->
    is_double W -> is_double L ->
    0 <= W -> 0 <= L -> 0 <= sF -> 0 <= sB -> 0 <= sL -> 0 <= sR ->
    is_finite (plotArea m) ->
    exists c bw bl p footprint : Q,
      groundCoverage m = Fin c /\ 0 <= c <= 100 /\
      le (groundCoverage m) (Fin 100) = true /\
      buildableWidth m = Fin bw /\ 0 <= bw <= W /\
      buildableLength m = Fin bl /\ 0 <= bl <= L /\
      plotArea m = Fin p /\
      (buildableWidth m * buildableLength m)%double = Fin footprint /\
      0 <= footprint <= p.
Proof.
  intros inputs W L sF sB sL sR F m Hdim -> DW DL HW HL HsF HsB HsL HsR.
  rewrite (Double_calculations_holds _ _ _ _ _ _ _ _ Hdim). cbv zeta.
  cbn [plotArea groundCoverage buildableWidth buildableLength].
  destruct (Double_clamp_bounds W sL sR DW HW HsL HsR) as (bw & -> & Hbw).
  destruct (Double_clamp_bounds L sF sB DL HL HsF HsB) as (bl & -> & Hbl).
  intros Hfin.
  destruct (Fin W * Fin L)%double as [p | | |] eqn:Hp; try contradiction.
  destruct (Double_coverage_bounds W L bw bl p Hbw Hbl Hp)
    as (g & c & -> & Hg & -> & Hc).
  exists c, bw, bl, p, g.
  repeat split; try reflexivity; try tauto.
  apply le_Fin. tauto.
Qed.

Lemma C10_witness :
  exists c : Q,
    groundCoverage (Double.calculations App.initial_inputs) = Fin c
    /\ 0 <= c <= 100.
Proof.
  assert (Hdim : dimensions App.initial_inputs 30 60 10 5 5 5 5)
    by (repeat split).
  assert (D30 : is_double 30) by (vm_compute; reflexivity).
  assert (D60 : is_double 60) by (vm_compute; reflexivity).
  destruct (C10_coverage_at_most_100 App.initial_inputs 30 60 10 5 5 5 5 _
              Hdim eq_refl D30 D60
              ltac:(discriminate) ltac:(discriminate) ltac:(discriminate)
              ltac:(discriminate) ltac:(discriminate) ltac:(discriminate) I)
    as (c & _ & _ & _ & _ & E & H & _).
  exists c. split; assumption.
Defined.

(** ** The layout engine *)

(** The object [o] holds the finite plot width [W], plot length [L] and road
    width [R]: the drawing is [W] wide and [L + R] high. *)
Lemma extents_holds (o : gmap string jsval) (W L R : Q) :
  holds o "plotWidth" W -> holds o "plotLength" L -> holds o "roadWidth" R ->
  PlotDiagramApp.totalWidthFt o = Fin W
  /\ PlotDiagramApp.totalHeightFt o = Fin (L + R).
Proof.
  intros HW HL HR. unfold PlotDiagramApp.totalWidthFt, PlotDiagramApp.totalHeightFt.
  rewrite (prop_holds _ _ _ HW), (prop_holds _ _ _ HL), (prop_holds _ _ _ HR).
  split; reflexivity.
Qed.

Lemma scale_same (inputs : gmap string jsval) :
  App.scale inputs = PlotDiagramApp.scale inputs.
Proof. reflexivity. Qed.

Lemma scale_holds (o : gmap string jsval) (W L R : Q) :
  holds o "plotWidth" W -> holds o "plotLength" L -> holds o "roadWidth" R ->
  0 < W -> 0 < L + R ->
  PlotDiagramApp.scale o = Fin (Qmin (500 / W) (500 / (L + R))).
Proof.
  intros HW HL HR Hw Hh. unfold PlotDiagramApp.scale.
  destruct (extents_holds o W L R HW HL HR) as [-> ->].
  unfold PlotDiagramApp.MAX_SIZE. rewrite !div_Fin_pos by assumption.
  reflexivity.
Qed.

(** With positive finite extents the first variant passes its guard. *)
Lemma guard_passes (o : gmap string jsval) (W L R : Q) :
  holds o "plotWidth" W -> holds o "plotLength" L -> holds o "roadWidth" R ->
  0 < W -> 0 < L + R ->
  le (PlotDiagramApp.totalWidthFt o) (Fin 0)
  || le (PlotDiagramApp.totalHeightFt o) (Fin 0) = false.
Proof.
  intros HW HL HR Hw Hh.
  destruct (extents_holds o W L R HW HL HR) as [-> ->].
  rewrite (proj2 (le_Fin_false _ _) Hw), (proj2 (le_Fin_false _ _) Hh).
  reflexivity.
Qed.

(** ** The scale in double precision *)

(** Fitting a [w] by [h] drawing into a square of side [size] with two
    quotients [sw] and [sh] that carry a relative error of at most [u]. *)
Lemma fit_to_box_rounded (size w h sw sh u : Q) :
  0 < size -> 0 < w -> 0 < h -> 0 <= u -> u < 1 ->
  size / w * (1 - u) <= sw <= size / w * (1 + u) ->
  size / h * (1 - u) <= sh <= size / h * (1 + u) ->
  (w <= h -> sh <= sw) -> (h <= w -> sw <= sh) ->
  let s := Qmin sw sh in
  0 < s
  /\ size * (1 - u) <= Qmax w h * s <= size * (1 + u)
  /\ 0 <= Qmin w h * s <= Qmax w h * s.
Proof.
  intros Hs Hw Hh Hu0 Hu1 [Hw1 Hw2] [Hh1 Hh2] Mwh Mhw s.
  assert (Ea : size / w * w == size) by (field; lra).
  assert (Eb : size / h * h == size) by (field; lra).
  assert (Ha : 0 < size / w) by (apply Qlt_shift_div_l; lra).
  assert (Hb : 0 < size / h) by (apply Qlt_shift_div_l; lra).
  set (a := size / w) in *. set (b := size / h) in *.
  assert (Psw : 0 < sw) by nra.
  assert (Psh : 0 < sh) by nra.
  subst s.
  destruct (Qlt_le_dec h w) as [Hlt | Hle].
  - assert (Hm : sw <= sh) by (apply Mhw; lra).
    rewrite (Q.max_l w h) by lra. rewrite (Q.min_r w h) by lra.
    rewrite (Q.min_l sw sh) by exact Hm.
    split; [exact Psw |]. split; [split; nra |]. split; nra.
  - assert (Hm : sh <= sw) by (apply Mwh; exact Hle).
    rewrite (Q.max_r w h) by exact Hle. rewrite (Q.min_l w h) by exact Hle.
    rewrite (Q.min_r sw sh) by exact Hm.
    split; [exact Psh |]. split; [split; nra |]. split; nra.
Qed.

Lemma is_double_below_500 : is_double (500 - 2 ^ (-44)).
Proof. vm_compute. reflexivity. Qed.

Lemma is_double_above_500 : is_double (500 + 2 ^ (-44)).
Proof. vm_compute. reflexivity. Qed.

(** Counterexample to C3 as stated.  In double precision the scaled larger
    extent is not always [MAX_SIZE]: for a drawing 30 wide and 10 + 10 high
    the scale is the binary64 number nearest to 500 / 30, and 30 times this
    scale is rounded to 500 + 2^-44, which is above [MAX_SIZE]. *)
Lemma C3_counterexample :
  let inputs :=
    <["plotLength" := VNum (Fin 10)]> (
    <["roadWidth" := VNum (Fin 10)]> App.initial_inputs) in
  let w := Double.totalWidthFt inputs in
  let h := Double.totalHeightFt inputs in
  let s := Double.scale inputs in
  w = Fin 30 /\ h = Fin 20
  /\ s = Math_min (Double.MAX_SIZE / w)%double (Double.MAX_SIZE / h)%double
  /\ ((Math_max w h * s)%double =~ Fin (500 + 2 ^ (-44)))%num
  /\ gt (Math_max w h * s)%double Double.MAX_SIZE = true
  /\ le (Math_max w h * s)%double Double.MAX_SIZE = false.
Proof.
  cbv zeta. compute_all.
Qed.

(** C3.  When the drawing is [w > 0] wide and [h > 0] high and neither
    quotient overflows or underflows, the scale factor is
    min(MAX_SIZE / w, MAX_SIZE / h) in double precision, a positive finite
    number; the scaled larger extent is within 2^-44 (one unit in the last
    place) of MAX_SIZE, and the scaled smaller extent lies between 0 and the
    scaled larger extent. *)
Theorem C3_scale_fits_box :
  forall (inputs : gmap string jsval) (w h : Q),
    Double.totalWidthFt inputs = Fin w ->
    Double.totalHeightFt inputs = Fin h ->
    0 < w -> 0 < h -> normal (500 / w) -> normal (500 / h) ->
    let MAX_SIZE := Double.MAX_SIZE in
    Double.scale inputs
    = Math_min (MAX_SIZE / Fin w)%double (MAX_SIZE / Fin h)%double
    /\ exists s larger smaller : Q,
         Double.scale inputs = Fin s /\ 0 < s
         /\ (Math_max (Fin w) (Fin h) * Fin s)%double = Fin larger
         /\ 500 - 2 ^ (-44) <= larger <= 500 + 2 ^ (-44)
         /\ (Math_min (Fin w) (Fin h) * Fin s)%double = Fin smaller
         /\ 0 <= smaller <= larger.
Proof.
  intros inputs w h Ew Eh Hw Hh Nw Nh MAX_SIZE.
  assert (E : Double.scale inputs
              = Math_min (MAX_SIZE / Fin w)%double (MAX_SIZE / Fin h)%double).
  { unfold Double.scale. rewrite Ew, Eh. reflexivity. }
  split; [exact E |]. rewrite E. subst MAX_SIZE. unfold Double.MAX_SIZE.
  rewrite !Double_div_Fin by assumption.
  destruct (round64_relative (500 / w) Nw) as (sw & Esw & Bw).
  destruct (round64_relative (500 / h) Nh) as (sh & Esh & Bh).
  assert (Mwh : w <= h -> sh <= sw).
  { intros H. apply le_Fin. rewrite <- Esw, <- Esh. apply round64_monotone.
    apply Qle_shift_div_l; [exact Hw |].
    assert (X : 500 / h * w == 500 * (w / h)) by (field; lra). rewrite X.
    assert (w / h <= 1) by (apply Qle_shift_div_r; lra). lra. }
  assert (Mhw : h <= w -> sw <= sh).
  { intros H. apply le_Fin. rewrite <- Esw, <- Esh. apply round64_monotone.
    apply Qle_shift_div_l; [exact Hh |].
    assert (X : 500 / w * h == 500 * (h / w)) by (field; lra). rewrite X.
    assert (h / w <= 1) by (apply Qle_shift_div_r; lra). lra. }
  rewrite Esw, Esh. cbn [Math_min Math_max].
  assert (U0 : 0 <= 2 ^ (-53)) by (apply Qlt_le_weak, pow2_pos).
  assert (U1 : 2 ^ (-53) < 1) by (apply (pow2_lt (-53) 0); lia).
  destruct (fit_to_box_rounded 500 w h sw sh (2 ^ (-53)) ltac:(reflexivity)
              Hw Hh U0 U1 Bw Bh Mwh Mhw) as (Ps & [B1 B2] & [S0 S1]).
  assert (U : 500 * 2 ^ (-53) <= 2 ^ (-44)) by (vm_compute; discriminate).
  destruct (round64_between (500 - 2 ^ (-44)) (500 + 2 ^ (-44))
              (Qmax w h * Qmin sw sh) is_double_below_500 is_double_above_500)
    as (larger & El & Bl).
  { set (u := 2 ^ (-53)) in *. set (v := 2 ^ (-44)) in *. split; lra. }
  destruct (le_between (round64 (Qmin w h * Qmin sw sh)) 0 larger)
    as (smaller & Es & Bs).
  { apply (proj1 (round64_sign _)). exact S0. }
  { rewrite <- El. apply round64_monotone. exact S1. }
  exists (Qmin sw sh), larger, smaller.
  rewrite !Double_mul_Fin, El, Es. repeat split; try assumption; tauto.
Qed.

Lemma C3_witness :
  exists s larger : Q,
    Double.scale App.initial_inputs = Fin s
    /\ (Math_max (Fin 30) (Fin 90) * Fin s)%double = Fin larger
    /\ 500 - 2 ^ (-44) <= larger <= 500 + 2 ^ (-44).
Proof.
  assert (Ew : Double.totalWidthFt App.initial_inputs = Fin 30) by reflexivity.
  assert (Eh : Double.totalHeightFt App.initial_inputs = Fin 90)
    by (vm_compute; reflexivity).
  assert (Nw : normal (500 / 30)) by (split; vm_compute; discriminate).
  assert (Nh : normal (500 / 90)) by (split; vm_compute; discriminate).
  destruct (C3_scale_fits_box App.initial_inputs 30 90 Ew Eh
              ltac:(reflexivity) ltac:(reflexivity) Nw Nh)
    as (_ & s & larger & smaller & Es & _ & El & Bl & _).
  exists s, larger. repeat split; assumption || apply Bl.
Defined.

(** ** The guard *)

(** The guard of the first variant: as soon as one extent is [<= 0] the
    output is the placeholder, which has no primitive; an [<svg>] is
    returned only when neither extent is [<= 0]. *)
Lemma PlotDiagramApp_guard (inputs : gmap string jsval) (buildable : metrics)
    (elements : gmap string jsval) :
  let w := PlotDiagramApp.totalWidthFt inputs in
  let h := PlotDiagramApp.totalHeightFt inputs in
  (le w (Fin 0) = true \/ le h (Fin 0) = true ->
   PlotDiagramApp.PlotDiagramSVG inputs buildable elements
   = Placeholder "Enter valid dimensions")
  /\ (forall sw sh t children,
        PlotDiagramApp.PlotDiagramSVG inputs buildable elements
        = Svg sw sh t children ->
        le w (Fin 0) = false /\ le h (Fin 0) = false).
Proof.
  intros w h. unfold PlotDiagramApp.PlotDiagramSVG. fold w h. split.
  - intros [-> | ->]; [reflexivity |]. rewrite orb_true_r. reflexivity.
  - intros sw sh t children.
    destruct (le w (Fin 0)), (le h (Fin 0)); cbn [orb]; intros H;
      try discriminate H. split; reflexivity.
Qed.

(** C2.  The first variant returns the placeholder whenever an extent is
    [<= 0] and returns an [<svg>], for which it computes the scale, only when
    neither extent is [<= 0].  The second variant has no guard: with plot
    width 0 entered in its initial inputs it evaluates [MAX_SIZE / 0], which
    is [Infinity], and returns an [<svg>] of width [2 * PADDING] whose plot
    rectangle is 0 wide; with plot width, plot length and road width all 0
    its scale is [Infinity] and the size of the [<svg>] is [NaN]. *)
Theorem C2_guard_missing_in_App :
  (forall (inputs : gmap string jsval) (buildable : metrics)
          (elements : gmap string jsval),
      le (PlotDiagramApp.totalWidthFt inputs) (Fin 0) = true
      \/ le (PlotDiagramApp.totalHeightFt inputs) (Fin 0) = true ->
      PlotDiagramApp.PlotDiagramSVG inputs buildable elements
      = Placeholder "Enter valid dimensions")
  /\ (forall (inputs : gmap string jsval) (buildable : metrics)
             (elements : gmap string jsval) sw sh t children,
        PlotDiagramApp.PlotDiagramSVG inputs buildable elements
        = Svg sw sh t children ->
        le (PlotDiagramApp.totalWidthFt inputs) (Fin 0) = false
        /\ le (PlotDiagramApp.totalHeightFt inputs) (Fin 0) = false)
  /\ (let inputs := <["plotWidth" := VNum (Fin 0)]> App.initial_inputs in
      le (App.totalWidthFt inputs) (Fin 0) = true
      /\ (App.MAX_SIZE / App.totalWidthFt inputs)%num = PInf
      /\ exists sw sh pW pL children,
          App.PlotDiagramSVG inputs (App.calculations inputs)
          = Svg sw sh (App.PADDING, App.PADDING)
              (ERect (Rect (Fin 0) (Fin 0) pW pL "#a7f3d0") :: children)
          /\ (sw =~ Fin 40)%num /\ (sh =~ Fin 540)%num
          /\ (pW =~ Fin 0)%num /\ (pL =~ Fin (1000 # 3))%num)
  /\ (let inputs :=
        <["plotWidth" := VNum (Fin 0)]> (
        <["plotLength" := VNum (Fin 0)]> (
        <["roadWidth" := VNum (Fin 0)]> App.initial_inputs)) in
      App.scale inputs = PInf
      /\ exists children,
          App.PlotDiagramSVG inputs (App.calculations inputs)
          = Svg NaN NaN (App.PADDING, App.PADDING) children).
Proof.
  split; [| split; [| split]].
  - intros inputs buildable elements H.
    apply (PlotDiagramApp_guard inputs buildable elements). exact H.
  - intros inputs buildable elements sw sh t children H.
    apply (PlotDiagramApp_guard inputs buildable elements) in H. exact H.
  - cbv zeta. split; [reflexivity |]. split; [reflexivity |].
    do 5 eexists. split; [vm_compute; reflexivity |].
    repeat split; vm_compute; reflexivity.
  - cbv zeta. split; [reflexivity |]. eexists. vm_compute. reflexivity.
Qed.

Lemma C2_witness :
  PlotDiagramApp.PlotDiagramSVG
    (<["plotWidth" := VNum (Fin 0)]> PlotDiagramApp.initial_inputs)
    (PlotDiagramApp.calculations
       (<["plotWidth" := VNum (Fin 0)]> PlotDiagramApp.initial_inputs))
    PlotDiagramApp.initial_elements
  = Placeholder "Enter valid dimensions".
Proof.
  apply (proj1 C2_guard_missing_in_App). left. reflexivity.
Defined.

(** ** Rectangles of the drawing *)

(** Case analysis on the membership of an element in a drawing. *)
Ltac split_In :=
  repeat match goal with
    | H : In _ (_ ++ _) |- _ => apply in_app_or in H; destruct H as [H | H]
    | H : In _ (_ :: _) |- _ => destruct H as [H | H]
    | H : In _ [] |- _ => destruct H
    | H : In _ (if ?c then _ else _) |- _ => destruct c eqn:?
    end.

(** The rectangle with a given fill among the elements compared with [r]. *)
Ltac same_rect :=
  repeat match goal with
    | H : ERect _ = ERect _ |- _ => injection H as H
    | H : EText _ _ _ _ = ERect _ |- _ => discriminate H
    | H : EPath _ = ERect _ |- _ => discriminate H
    | H : fill ?r = _, E : _ = ?r |- _ => rewrite <- E in H; try discriminate H
    end.

(** The parking rectangle computed by both variants. *)
Lemma A_parking_drawn (inputs : gmap string jsval) (buildable : metrics)
    (elements : gmap string jsval) (r : rect) :
  let scale := PlotDiagramApp.scale inputs in
  let sB := (ToNumber (prop inputs "setbackBack") * scale)%num in
  let sL := (ToNumber (prop inputs "setbackLeft") * scale)%num in
  let bW := (buildableWidth buildable * scale)%num in
  let bL := (buildableLength buildable * scale)%num in
  let parkW := (ToNumber (prop inputs "parkingWidth") * scale)%num in
  let parkL := (ToNumber (prop inputs "parkingLength") * scale)%num in
  drawn parking_fill (PlotDiagramApp.PlotDiagramSVG inputs buildable elements) r
  <-> (le (PlotDiagramApp.totalWidthFt inputs) (Fin 0)
       || le (PlotDiagramApp.totalHeightFt inputs) (Fin 0) = false
       /\ ToBoolean (prop elements "parking")
          && gt (ToNumber (prop inputs "parkingWidth")) (Fin 0)
          && gt (ToNumber (prop inputs "parkingLength")) (Fin 0) = true
       /\ r = Rect (sL + (bW - parkW) / Fin 2)%num (sB + bL - parkL)%num
                parkW parkL "#fef08a").
Proof.
  intros scale sB sL bW bL parkW parkL.
  unfold drawn, PlotDiagramApp.PlotDiagramSVG, parking_fill.
  destruct (le (PlotDiagramApp.totalWidthFt inputs) (Fin 0)
            || le (PlotDiagramApp.totalHeightFt inputs) (Fin 0)).
  - cbn [primitives In]. split; [tauto | intros (H & _); discriminate H].
  - cbn [primitives]. split.
    + intros [HIn Hfill]. split; [reflexivity |].
      split_In; same_rect.
      split; [reflexivity |]. symmetry. exact HIn.
    + intros (_ & -> & ->). split; [| reflexivity].
      apply in_or_app. right. apply in_or_app. left. left. reflexivity.
Qed.

Lemma B_parking_drawn (inputs : gmap string jsval) (buildable : metrics)
    (r : rect) :
  let scale := App.scale inputs in
  let sB := (ToNumber (prop inputs "setbackBack") * scale)%num in
  let sL := (ToNumber (prop inputs "setbackLeft") * scale)%num in
  let bW := (buildableWidth buildable * scale)%num in
  let bL := (buildableLength buildable * scale)%num in
  let parkW := (ToNumber (prop inputs "parkingWidth") * scale)%num in
  let parkL := (ToNumber (prop inputs "parkingLength") * scale)%num in
  drawn parking_fill (App.PlotDiagramSVG inputs buildable) r
  <-> (ToBoolean (prop inputs "addParking")
       && gt (ToNumber (prop inputs "parkingWidth")) (Fin 0)
       && gt (ToNumber (prop inputs "parkingLength")) (Fin 0) = true
       /\ r = Rect (sL + (bW - parkW) / Fin 2)%num (sB + bL - parkL)%num
                parkW parkL "#fef08a").
Proof.
  intros scale sB sL bW bL parkW parkL.
  unfold drawn, App.PlotDiagramSVG, parking_fill. cbn [primitives]. split.
  - intros [HIn Hfill]. split_In; same_rect.
    split; [reflexivity |]. symmetry. exact HIn.
  - intros (-> & ->). split; [| reflexivity].
    apply in_or_app. right. apply in_or_app. left. left. reflexivity.
Qed.

(** The buildable rectangle drawn by both variants. *)
Lemma A_buildable_drawn (inputs : gmap string jsval) (buildable : metrics)
    (elements : gmap string jsval) (b : rect) :
  let scale := PlotDiagramApp.scale inputs in
  let sB := (ToNumber (prop inputs "setbackBack") * scale)%num in
  let sL := (ToNumber (prop inputs "setbackLeft") * scale)%num in
  let bW := (buildableWidth buildable * scale)%num in
  let bL := (buildableLength buildable * scale)%num in
  drawn buildable_fill (PlotDiagramApp.PlotDiagramSVG inputs buildable elements) b
  <-> (le (PlotDiagramApp.totalWidthFt inputs) (Fin 0)
       || le (PlotDiagramApp.totalHeightFt inputs) (Fin 0) = false
       /\ b = Rect sL sB bW bL "#bfdbfe").
Proof.
  intros scale sB sL bW bL.
  unfold drawn, PlotDiagramApp.PlotDiagramSVG, buildable_fill.
  destruct (le (PlotDiagramApp.totalWidthFt inputs) (Fin 0)
            || le (PlotDiagramApp.totalHeightFt inputs) (Fin 0)).
  - cbn [primitives In]. split; [tauto | intros (H & _); discriminate H].
  - cbn [primitives]. split.
    + intros [HIn Hfill]. split; [reflexivity |].
      split_In; same_rect. symmetry. exact HIn.
    + intros (_ & ->). split; [| reflexivity].
      apply in_or_app. left. do 5 right. left. reflexivity.
Qed.

Lemma B_buildable_drawn (inputs : gmap string jsval) (buildable : metrics)
    (b : rect) :
  let scale := App.scale inputs in
  let sB := (ToNumber (prop inputs "setbackBack") * scale)%num in
  let sL := (ToNumber (prop inputs "setbackLeft") * scale)%num in
  let bW := (buildableWidth buildable * scale)%num in
  let bL := (buildableLength buildable * scale)%num in
  drawn buildable_fill (App.PlotDiagramSVG inputs buildable) b
  <-> b = Rect sL sB bW bL "#bfdbfe".
Proof.
  intros scale sB sL bW bL.
  unfold drawn, App.PlotDiagramSVG, buildable_fill. cbn [primitives]. split.
  - intros [HIn Hfill]. split_In; same_rect. symmetry. exact HIn.
  - intros ->. split; [| reflexivity].
    apply in_or_app. left. do 3 right. left. reflexivity.
Qed.




(** ** The change handler *)

(** What [Math.max(0, parseFloat(value) || 0)] evaluates to, for every
    result [p] of [parseFloat]. *)
Lemma coerced_value (p : num) :
  let n := Math_max (Fin 0) (or_else p (Fin 0)) in
  ge n (Fin 0) = true
  /\ (p = NaN -> n = Fin 0)
  /\ (p = NInf -> n = Fin 0)
  /\ (forall q : Q, p = Fin q -> q < 0 -> (n =~ Fin 0)%num)
  /\ (forall q : Q, p = Fin q -> 0 <= q -> (n =~ Fin q)%num).
Proof.
  cbv zeta. unfold ge. split; [| split; [| split; [| split]]].
  - destruct p as [q| | |]; try reflexivity.
    unfold or_else. cbn [truthy].
    destruct (q ?= 0); cbn [Math_max]; apply le_Fin, Q.le_max_l.
  - intros ->. reflexivity.
  - intros ->. reflexivity.
  - intros q -> Hq. unfold or_else. cbn [truthy].
    destruct (Qcompare_spec q 0); cbn [Math_max num_eq]; apply Q.max_l; lra.
  - intros q -> Hq. unfold or_else. cbn [truthy].
    destruct (Qcompare_spec q 0); cbn [Math_max num_eq].
    + rewrite Q.max_l by lra. symmetry. assumption.
    + lra.
    + apply Q.max_r; lra.
Qed.

Lemma nonneg_fields_insert (o : gmap string jsval) (k : string) (v : jsval) :
  nonneg v -> nonneg_fields o -> nonneg_fields (<[k := v]> o).
Proof.
  intros Hv Ho k' v'. destruct (decide (k = k')) as [-> | Hne].
  - rewrite lookup_insert_eq. intros [= <-]. exact Hv.
  - rewrite lookup_insert_ne by exact Hne. apply Ho.
Qed.

Lemma nonneg_number_insert (o : gmap string jsval) (k k' : string) (n : num) :
  ge n (Fin 0) = true -> nonneg_number o k' ->
  nonneg_number (<[k := VNum n]> o) k'.
Proof.
  intros Hn [n' [Hk' Hn']]. unfold nonneg_number.
  destruct (decide (k = k')) as [-> | Hne].
  - rewrite lookup_insert_eq. eauto.
  - rewrite lookup_insert_ne by exact Hne. eauto.
Qed.

Section HandleChange.

Variable parseFloat : string -> num.

(** The number the handlers store for the event target [e]. *)
Local Abbreviation stored e :=
  (Math_max (Fin 0) (or_else (parseFloat (value e)) (Fin 0))).

Lemma A_handleChange_lookup (inputs : gmap string jsval) (e : target) :
  PlotDiagramApp.handleChange parseFloat inputs e !! name e
  = Some (VNum (stored e))
  /\ (forall k, k <> name e ->
      PlotDiagramApp.handleChange parseFloat inputs e !! k = inputs !! k).
Proof.
  unfold PlotDiagramApp.handleChange. split.
  - apply lookup_insert_eq.
  - intros k Hk. apply lookup_insert_ne. congruence.
Qed.

Lemma B_handleChange_lookup (inputs : gmap string jsval) (e : target) :
  (type e <> "checkbox" ->
   App.handleChange parseFloat inputs e !! name e = Some (VNum (stored e)))
  /\ (type e = "checkbox" ->
      App.handleChange parseFloat inputs e !! name e = Some (VBool (checked e)))
  /\ (forall k, k <> name e ->
      App.handleChange parseFloat inputs e !! k = inputs !! k).
Proof.
  unfold App.handleChange. split; [| split].
  - intros Hty. rewrite lookup_insert_eq.
    destruct (String.eqb_spec (type e) "checkbox"); [contradiction | reflexivity].
  - intros ->. rewrite lookup_insert_eq. reflexivity.
  - intros k Hk. apply lookup_insert_ne. congruence.
Qed.

Lemma A_handleChange_nonneg (inputs : gmap string jsval) (e : target) :
  nonneg_fields inputs ->
  nonneg_fields (PlotDiagramApp.handleChange parseFloat inputs e).
Proof.
  apply nonneg_fields_insert. apply coerced_value.
Qed.

Lemma B_handleChange_nonneg (inputs : gmap string jsval) (e : target) :
  nonneg_fields inputs ->
  nonneg_fields (App.handleChange parseFloat inputs e).
Proof.
  apply nonneg_fields_insert.
  destruct (String.eqb (type e) "checkbox"); [exact I | apply coerced_value].
Qed.

Lemma A_handleChange_number (inputs : gmap string jsval) (e : target) (k : string) :
  nonneg_number inputs k ->
  nonneg_number (PlotDiagramApp.handleChange parseFloat inputs e) k.
Proof.
  apply nonneg_number_insert. apply coerced_value.
Qed.

(** An event from a widget of the second variant leaves a number in every
    numeric field: the checkboxes are bound to the two toggles only. *)
Lemma B_handleChange_number (inputs : gmap string jsval) (e : target) (k : string) :
  App.from_widget e -> In k App.numeric_fields ->
  nonneg_number inputs k ->
  nonneg_number (App.handleChange parseFloat inputs e) k.
Proof.
  intros [[Hty Hname] | [Hty Hname]] Hk Hn; unfold App.handleChange; rewrite Hty.
  - apply nonneg_number_insert; [apply coerced_value | exact Hn].
  - change (String.eqb "checkbox" "checkbox") with true.
    destruct Hn as [n [Hl Hn]]. exists n. split; [| exact Hn].
    rewrite lookup_insert_ne; [exact Hl |].
    intros E. rewrite E in Hname.
    cbn [App.checkboxes In] in Hname.
    destruct Hname as [<- | [<- | []]];
      cbn [App.numeric_fields number_inputs app In] in Hk;
      repeat (destruct Hk as [Hk | Hk]; [discriminate Hk |]); destruct Hk.
Qed.

Lemma initial_nonneg :
  nonneg_fields PlotDiagramApp.initial_inputs
  /\ nonneg_fields App.initial_inputs
  /\ (forall k, In k number_inputs -> nonneg_number PlotDiagramApp.initial_inputs k)
  /\ (forall k, In k App.numeric_fields -> nonneg_number App.initial_inputs k).
Proof.
  split; [| split; [| split]].
  - intros k v Hk.
    apply (map_Forall_to_list (fun _ v => nonneg v) PlotDiagramApp.initial_inputs)
      in Hk; [exact Hk |].
    vm_compute. repeat constructor.
  - intros k v Hk.
    apply (map_Forall_to_list (fun _ v => nonneg v) App.initial_inputs)
      in Hk; [exact Hk |].
    vm_compute. repeat constructor.
  - intros k Hk. cbn [number_inputs In] in Hk.
    repeat (destruct Hk as [<- | Hk]; [eexists; split; reflexivity |]).
    destruct Hk.
  - intros k Hk. cbn [App.numeric_fields number_inputs app In] in Hk.
    repeat (destruct Hk as [<- | Hk]; [eexists; split; reflexivity |]).
    destruct Hk.
Qed.

End HandleChange.

(** A property of the inputs that every handled event preserves holds after
    any sequence of events. *)
Lemma fold_left_preserves {E : Type} (P : gmap string jsval -> Prop)
    (f : gmap string jsval -> E -> gmap string jsval) (Q : E -> Prop) :
  (forall o e, Q e -> P o -> P (f o e)) ->
  forall (events : list E) (o : gmap string jsval),
    Forall Q events -> P o -> P (fold_left f events o).
Proof.
  intros Hstep events. induction events as [| e events IH]; intros o HQ Ho.
  - exact Ho.
  - cbn [fold_left]. inversion HQ as [| ? ? He Hes]; subst.
    apply IH; [exact Hes |]. apply Hstep; assumption.
Qed.

Lemma Forall_True {E : Type} (events : list E) : Forall (fun _ => True) events.
Proof. induction events; constructor; auto. Qed.

(** C7.  Whatever [parseFloat] returns, the number a change stores in the
    named field is [>= 0]; it is 0 when the entry does not parse ([NaN]) and
    when it parses to a negative number.  Hence after any sequence of changes
    from the initial inputs every field that holds a number holds one that
    is [>= 0]; the ten number fields of the first variant always hold such a
    number, and so do the fourteen numeric fields of the second variant
    under the events its widgets emit. *)
Theorem C7_numeric_fields_nonneg :
  forall parseFloat : string -> num,
    (forall (inputs : gmap string jsval) (e : target),
        exists n : num,
          PlotDiagramApp.handleChange parseFloat inputs e !! name e
          = Some (VNum n)
          /\ ge n (Fin 0) = true
          /\ (parseFloat (value e) = NaN -> n = Fin 0)
          /\ (forall q, parseFloat (value e) = Fin q -> q < 0 -> (n =~ Fin 0)%num))
    /\ (forall (inputs : gmap string jsval) (e : target),
          type e <> "checkbox" ->
          exists n : num,
            App.handleChange parseFloat inputs e !! name e = Some (VNum n)
            /\ ge n (Fin 0) = true
            /\ (parseFloat (value e) = NaN -> n = Fin 0)
            /\ (forall q, parseFloat (value e) = Fin q -> q < 0 -> (n =~ Fin 0)%num))
    /\ (forall events : list target,
          let inputs :=
            fold_left (PlotDiagramApp.handleChange parseFloat) events
              PlotDiagramApp.initial_inputs in
          nonneg_fields inputs
          /\ (forall k, In k number_inputs -> nonneg_number inputs k))
    /\ (forall events : list target,
          let inputs :=
            fold_left (App.handleChange parseFloat) events App.initial_inputs in
          nonneg_fields inputs
          /\ (Forall App.from_widget events ->
              forall k, In k App.numeric_fields -> nonneg_number inputs k))
    /\ (forall c, PlotDiagramApp.reachable parseFloat c ->
                  nonneg_fields (PlotDiagramApp.inputs c))
    /\ (forall c, App.reachable parseFloat c -> nonneg_fields (App.inputs c)).
Proof.
  intros parseFloat.
  destruct initial_nonneg as (HA & HB & HAn & HBn).
  split; [| split; [| split; [| split; [| split]]]].
  - intros inputs e. eexists.
    split; [apply (A_handleChange_lookup parseFloat inputs e) |].
    pose proof (coerced_value (parseFloat (value e))) as H. cbv zeta in H.
    repeat split; apply H.
  - intros inputs e Hty. eexists.
    split; [apply (B_handleChange_lookup parseFloat inputs e); exact Hty |].
    pose proof (coerced_value (parseFloat (value e))) as H. cbv zeta in H.
    repeat split; apply H.
  - intros events inputs. subst inputs. split.
    + apply (fold_left_preserves nonneg_fields _ (fun _ => True));
        [| apply Forall_True | exact HA].
      intros o e _. apply A_handleChange_nonneg.
    + intros k Hk.
      apply (fold_left_preserves (fun o => nonneg_number o k) _ (fun _ => True));
        [| apply Forall_True | exact (HAn k Hk)].
      intros o e _. apply A_handleChange_number.
  - intros events inputs. subst inputs. split.
    + apply (fold_left_preserves nonneg_fields _ (fun _ => True));
        [| apply Forall_True | exact HB].
      intros o e _. apply B_handleChange_nonneg.
    + intros Hev k Hk.
      apply (fold_left_preserves (fun o => nonneg_number o k) _ App.from_widget);
        [| exact Hev | exact (HBn k Hk)].
      intros o e He. apply B_handleChange_number; assumption.
  - intros c Hc. induction Hc as [| c Hc IH | c ev Hc IH].
    + exact HA.
    + unfold PlotDiagramApp.render.
      destruct (useMemo _ _ _ _). exact IH.
    + destruct ev; cbn [PlotDiagramApp.handle PlotDiagramApp.inputs].
      * apply A_handleChange_nonneg. exact IH.
      * exact IH.
  - intros c Hc. induction Hc as [| c Hc IH | c e Hc IH].
    + exact HB.
    + unfold App.render. destruct (useMemo _ _ _ _). exact IH.
    + cbn [App.handle App.inputs]. apply B_handleChange_nonneg. exact IH.
Qed.

Lemma C7_witness :
  exists n : num,
    App.handleChange (fun _ => Fin (-3)) App.initial_inputs
      (Target "plotWidth" "-3" "number" false) !! "plotWidth"
    = Some (VNum n)
    /\ ge n (Fin 0) = true.
Proof.
  destruct (proj1 (proj2 (C7_numeric_fields_nonneg (fun _ => Fin (-3))))
              App.initial_inputs (Target "plotWidth" "-3" "number" false)
              ltac:(discriminate))
    as (n & Hn & Hge & _).
  exists n. split; [exact Hn | exact Hge].
Defined.

(** ** Rendering does not depend on the history *)

(** A hit of [useMemo] returns what [f] would compute, as long as the cell
    was filled for the object that now has the identity [id]. *)
Lemma useMemo_value {A : Type} (f : gmap string jsval -> A)
    (dep : gmap string jsval) (id : nat) (cell : option (nat * A)) :
  (forall v, cell = Some (id, v) -> v = f dep) ->
  fst (useMemo f dep id cell) = f dep
  /\ snd (useMemo f dep id cell) = Some (id, f dep).
Proof.
  intros Hcell. unfold useMemo. destruct cell as [[id' v] |]; [| split; reflexivity].
  destruct (Nat.eqb_spec id' id) as [-> | Hne]; [| split; reflexivity].
  rewrite (Hcell v eq_refl). split; reflexivity.
Qed.

Section Sessions.

Variable parseFloat : string -> num.

(** The cell of [useMemo] is never ahead of the current inputs object, and
    when it was filled for that object it holds its metrics. *)
Lemma A_memo_consistent (c : PlotDiagramApp.component) :
  PlotDiagramApp.reachable parseFloat c ->
  forall id v, PlotDiagramApp.memo c = Some (id, v) ->
    (id <= PlotDiagramApp.inputs_id c)%nat
    /\ (id = PlotDiagramApp.inputs_id c ->
        v = PlotDiagramApp.calculations (PlotDiagramApp.inputs c)).
Proof.
  induction 1 as [| c Hc IH | c ev Hc IH]; intros id v Hm.
  - discriminate Hm.
  - unfold PlotDiagramApp.render in Hm |- *.
    destruct (useMemo_value PlotDiagramApp.calculations (PlotDiagramApp.inputs c)
                (PlotDiagramApp.inputs_id c) (PlotDiagramApp.memo c)) as [_ Hcell].
    { intros v' Hv'. apply (IH _ _ Hv'). reflexivity. }
    destruct (useMemo _ _ _ _) as [m cell]. cbn in Hcell, Hm |- *.
    rewrite Hcell in Hm. injection Hm as <- <-. split; [lia | reflexivity].
  - destruct ev; cbn in Hm |- *.
    + destruct (IH _ _ Hm) as [Hle _]. split; [lia | lia].
    + apply IH. exact Hm.
Qed.

Lemma B_memo_consistent (c : App.component) :
  App.reachable parseFloat c ->
  forall id v, App.memo c = Some (id, v) ->
    (id <= App.inputs_id c)%nat
    /\ (id = App.inputs_id c -> v = App.calculations (App.inputs c)).
Proof.
  induction 1 as [| c Hc IH | c e Hc IH]; intros id v Hm.
  - discriminate Hm.
  - unfold App.render in Hm |- *.
    destruct (useMemo_value App.calculations (App.inputs c)
                (App.inputs_id c) (App.memo c)) as [_ Hcell].
    { intros v' Hv'. apply (IH _ _ Hv'). reflexivity. }
    destruct (useMemo _ _ _ _) as [m cell]. cbn in Hcell, Hm |- *.
    rewrite Hcell in Hm. injection Hm as <- <-. split; [lia | reflexivity].
  - cbn in Hm |- *. destruct (IH _ _ Hm) as [Hle _]. split; lia.
Qed.

(** What a reachable component shows is computed from its current inputs
    (and toggles) alone. *)
Lemma A_render_pure (c : PlotDiagramApp.component) :
  PlotDiagramApp.reachable parseFloat c ->
  fst (PlotDiagramApp.render c)
  = (PlotDiagramApp.calculations (PlotDiagramApp.inputs c),
     PlotDiagramApp.PlotDiagramSVG (PlotDiagramApp.inputs c)
       (PlotDiagramApp.calculations (PlotDiagramApp.inputs c))
       (PlotDiagramApp.elements c)).
Proof.
  intros Hc. unfold PlotDiagramApp.render.
  destruct (useMemo_value PlotDiagramApp.calculations (PlotDiagramApp.inputs c)
              (PlotDiagramApp.inputs_id c) (PlotDiagramApp.memo c)) as [Hv _].
  { intros v Hv. apply (A_memo_consistent c Hc _ _ Hv). reflexivity. }
  destruct (useMemo _ _ _ _) as [m cell]. cbn in Hv |- *. rewrite Hv. reflexivity.
Qed.

Lemma B_render_pure (c : App.component) :
  App.reachable parseFloat c ->
  fst (App.render c)
  = (App.calculations (App.inputs c),
     App.PlotDiagramSVG (App.inputs c) (App.calculations (App.inputs c))).
Proof.
  intros Hc. unfold App.render.
  destruct (useMemo_value App.calculations (App.inputs c)
              (App.inputs_id c) (App.memo c)) as [Hv _].
  { intros v Hv. apply (B_memo_consistent c Hc _ _ Hv). reflexivity. }
  destruct (useMemo _ _ _ _) as [m cell]. cbn in Hv |- *. rewrite Hv. reflexivity.
Qed.

End Sessions.

(** C8.  The metrics and the drawing a component shows are functions of its
    dimensional input set (inputs and toggles) alone: two components reached
    by any two histories of events and renders that hold the same input set
    show identical metrics and identical drawings, whatever their [useMemo]
    cells and object identities are, and rendering a component again shows
    the same. *)
Theorem C8_render_deterministic :
  forall parseFloat : string -> num,
    (forall c1 c2 : PlotDiagramApp.component,
        PlotDiagramApp.reachable parseFloat c1 ->
        PlotDiagramApp.reachable parseFloat c2 ->
        PlotDiagramApp.inputs c1 = PlotDiagramApp.inputs c2 ->
        PlotDiagramApp.elements c1 = PlotDiagramApp.elements c2 ->
        fst (PlotDiagramApp.render c1) = fst (PlotDiagramApp.render c2)
        /\ fst (PlotDiagramApp.render (snd (PlotDiagramApp.render c1)))
           = fst (PlotDiagramApp.render c1)
        /\ fst (PlotDiagramApp.render c1)
           = (PlotDiagramApp.calculations (PlotDiagramApp.inputs c1),
              PlotDiagramApp.PlotDiagramSVG (PlotDiagramApp.inputs c1)
                (PlotDiagramApp.calculations (PlotDiagramApp.inputs c1))
                (PlotDiagramApp.elements c1)))
    /\ (forall c1 c2 : App.component,
          App.reachable parseFloat c1 ->
          App.reachable parseFloat c2 ->
          App.inputs c1 = App.inputs c2 ->
          fst (App.render c1) = fst (App.render c2)
          /\ fst (App.render (snd (App.render c1))) = fst (App.render c1)
          /\ fst (App.render c1)
             = (App.calculations (App.inputs c1),
                App.PlotDiagramSVG (App.inputs c1)
                  (App.calculations (App.inputs c1)))).
Proof.
  intros parseFloat. split.
  - intros c1 c2 H1 H2 Hi He.
    rewrite (A_render_pure parseFloat (snd (PlotDiagramApp.render c1)))
      by (apply PlotDiagramApp.reach_render; exact H1).
    rewrite (A_render_pure parseFloat c1 H1), (A_render_pure parseFloat c2 H2).
    rewrite Hi, He. split; [reflexivity |]. split; [| reflexivity].
    unfold PlotDiagramApp.render. destruct (useMemo _ _ _ _). cbn.
    rewrite Hi, He. reflexivity.
  - intros c1 c2 H1 H2 Hi.
    rewrite (B_render_pure parseFloat (snd (App.render c1)))
      by (apply App.reach_render; exact H1).
    rewrite (B_render_pure parseFloat c1 H1), (B_render_pure parseFloat c2 H2).
    rewrite Hi. split; [reflexivity |]. split; [| reflexivity].
    unfold App.render. destruct (useMemo _ _ _ _). cbn.
    rewrite Hi. reflexivity.
Qed.

Lemma C8_witness :
  let parseFloat := fun _ : string => NaN in
  let c1 :=
    PlotDiagramApp.handle parseFloat
      (PlotDiagramApp.handle parseFloat
         (snd (PlotDiagramApp.render PlotDiagramApp.mount)) (PlotDiagramApp.Toggle "parking"))
      (PlotDiagramApp.Toggle "parking") in
  fst (PlotDiagramApp.render c1)
  = fst (PlotDiagramApp.render PlotDiagramApp.mount).
Proof.
  intros parseFloat c1.
  apply (proj1 (C8_render_deterministic parseFloat) c1 PlotDiagramApp.mount).
  - apply PlotDiagramApp.reach_handle, PlotDiagramApp.reach_handle,
      PlotDiagramApp.reach_render, PlotDiagramApp.reach_mount.
  - apply PlotDiagramApp.reach_mount.
  - reflexivity.
  - vm_compute. reflexivity.
Defined.

(** * Further properties of the code *)

(** ** The metrics calculator *)

(** Total built-up area and floor area ratio are never negative nor [NaN]
    on a finite footprint. *)
Lemma Double_far_nonneg (g F p : Q) :
  0 <= g -> 0 <= F ->
  num_le (Fin 0) (Fin g * Fin F)%double
  /\ num_le (Fin 0)
       (if gt (Fin p) (Fin 0) then (Fin g * Fin F / Fin p)%double else Fin 0).
Proof.
  intros Hg HF. unfold num_le.
  assert (Ht : le (Fin 0) (Fin g * Fin F)%double = true).
  { rewrite Double_mul_Fin. apply (proj1 (round64_sign _)).
    apply Qmult_le_0_compat; assumption. }
  split; [exact Ht |].
  destruct (gt (Fin p) (Fin 0)) eqn:Hpos; [| reflexivity].
  apply gt_Fin in Hpos.
  destruct (Fin g * Fin F)%double as [t | | |]; simpl in Ht; try congruence.
  - apply (le_Fin 0 t) in Ht. rewrite Double_div_Fin by exact Hpos.
    apply (proj1 (round64_sign _)). apply Qle_shift_div_l; lra.
  - unfold div64. simpl. apply Qgt_alt in Hpos. rewrite Hpos. reflexivity.
Qed.

(** X1.  In double precision, for non-negative binary64 dimensions whose
    plot area does not overflow, none of the six results of the calculator
    is [NaN] or negative: plot area, buildable width and length and ground
    coverage are finite numbers [>= 0], total built-up area and floor area
    ratio are [>= 0] (they can be [Infinity]). *)
Theorem metrics_never_negative :
  forall (inputs : gmap string jsval) (W L sF sB sL sR F : Q) (m : metrics),
    dimensions inputs W L sF sB sL sR F ->
    m = Double.calculations inputs ->
    is_double W -> is_double L ->
    0 <= W -> 0 <= L -> 0 <= sF -> 0 <= sB -> 0 <= sL -> 0 <= sR -> 0 <= F ->
    is_finite (plotArea m) ->
    (exists a c bw bl : Q,
        plotArea m = Fin a /\ groundCoverage m = Fin c
        /\ buildableWidth m = Fin bw /\ buildableLength m = Fin bl
        /\ 0 <= a /\ 0 <= c /\ 0 <= bw /\ 0 <= bl)
    /\ num_le (Fin 0) (totalBUA m) /\ num_le (Fin 0) (far m).
Proof.
  intros inputs W L sF sB sL sR F m Hdim -> DW DL HW HL HsF HsB HsL HsR HF.
  rewrite (Double_calculations_holds _ _ _ _ _ _ _ _ Hdim). cbv zeta.
  cbn [plotArea groundCoverage buildableWidth buildableLength totalBUA far].
  destruct (Double_clamp_bounds W sL sR DW HW HsL HsR) as (bw & -> & Hbw).
  destruct (Double_clamp_bounds L sF sB DL HL HsF HsB) as (bl & -> & Hbl).
  intros Hfin.
  destruct (Fin W * Fin L)%double as [p | | |] eqn:Hp; try contradiction.
  destruct (Double_coverage_bounds W L bw bl p Hbw Hbl Hp)
    as (g & c & -> & Hg & -> & Hc).
  split.
  - exists p, c, bw, bl. repeat split; try tauto. lra.
  - apply Double_far_nonneg; tauto.
Qed.

Lemma metrics_never_negative_witness :
  num_le (Fin 0)
    (far (Double.calculations
            (<["setbackLeft" := VNum (Fin 100)]> App.initial_inputs))).
Proof.
  assert (Hdim : dimensions (<["setbackLeft" := VNum (Fin 100)]> App.initial_inputs)
                   30 60 10 5 100 5 5) by (repeat split).
  assert (D30 : is_double 30) by (vm_compute; reflexivity).
  assert (D60 : is_double 60) by (vm_compute; reflexivity).
  apply (metrics_never_negative _ 30 60 10 5 100 5 5 _ Hdim eq_refl D30 D60
           ltac:(discriminate) ltac:(discriminate) ltac:(discriminate)
           ltac:(discriminate) ltac:(discriminate) ltac:(discriminate)
           ltac:(discriminate) I).
Defined.

(** ** Monotonicity in double precision *)

Lemma round64_not_NaN (q : Q) : round64 q <> NaN.
Proof.
  intros E. pose proof (round64_monotone q q (Qle_refl q)) as H.
  rewrite E in H. discriminate H.
Qed.

Lemma rounded_monotone (a b : num) :
  le a b = true -> le (rounded a) (rounded b) = true.
Proof.
  destruct a as [x | | |], b as [y | | |]; simpl; try congruence.
  - intros H. apply round64_monotone. apply (le_Fin x y). exact H.
  - intros _. pose proof (round64_not_NaN x).
    destruct (round64 x); reflexivity || congruence.
  - intros _. pose proof (round64_not_NaN y).
    destruct (round64 y); reflexivity || congruence.
Qed.

(** A larger setback gives a smaller difference. *)
Lemma sub64_monotone (a b : num) (s1 s2 : Q) :
  le a b = true -> s2 <= s1 ->
  le (a - Fin s1)%double (b - Fin s2)%double = true.
Proof.
  intros H Hs. apply rounded_monotone.
  destruct a as [x | | |], b as [y | | |]; simpl in *; try congruence.
  apply (le_Fin (x - s1) (y - s2)). apply (le_Fin x y) in H. lra.
Qed.

Lemma clamp_monotone (a b : num) :
  le a b = true -> le (Math_max (Fin 0) a) (Math_max (Fin 0) b) = true.
Proof.
  destruct a as [x | | |], b as [y | | |]; simpl; try congruence.
  - intros H. apply (le_Fin (Qmax 0 x) (Qmax 0 y)). apply (le_Fin x y) in H.
    apply Q.max_le_compat_l. exact H.
  - intros _. apply (le_Fin 0 (Qmax 0 y)). apply Q.le_max_l.
Qed.

Lemma div64_monotone (a b : num) (p : Q) :
  0 < p -> le a b = true -> le (a / Fin p)%double (b / Fin p)%double = true.
Proof.
  intros Hp H. apply rounded_monotone.
  assert (Ep : (p ?= 0) = Gt) by (apply Qgt_alt; exact Hp).
  destruct a as [x | | |], b as [y | | |]; simpl in *; rewrite ?Ep;
    try congruence; try reflexivity.
  apply (le_Fin (x / p) (y / p)). apply (le_Fin x y) in H.
  apply Qmult_le_compat_r; [exact H |].
  apply Qlt_le_weak, Qinv_lt_0_compat. exact Hp.
Qed.

(** X3.  In double precision, on non-negative binary64 dimensions whose
    plot area does not overflow: when no setback decreases and the floor
    count does not increase (plot size unchanged), buildable width and
    length, total built-up area, ground coverage and floor area ratio do
    not increase.  Read from right to left: smaller setbacks or more floors
    never give less. *)
Theorem metrics_monotone :
  forall (inputs1 inputs2 : gmap string jsval)
         (W L F F' sF sB sL sR sF' sB' sL' sR' : Q) (m1 m2 : metrics),
    dimensions inputs1 W L sF sB sL sR F ->
    dimensions inputs2 W L sF' sB' sL' sR' F' ->
    m1 = Double.calculations inputs1 -> m2 = Double.calculations inputs2 ->
    is_double W -> is_double L -> 0 <= W -> 0 <= L ->
    0 <= sF -> 0 <= sB -> 0 <= sL -> 0 <= sR -> 0 <= F ->
    is_finite (plotArea m1) ->
    sF <= sF' -> sB <= sB' -> sL <= sL' -> sR <= sR' -> F' <= F ->
    num_le (buildableWidth m2) (buildableWidth m1)
    /\ num_le (buildableLength m2) (buildableLength m1)
    /\ num_le (totalBUA m2) (totalBUA m1)
    /\ num_le (groundCoverage m2) (groundCoverage m1)
    /\ num_le (far m2) (far m1).
Proof.
  intros inputs1 inputs2 W L F F' sF sB sL sR sF' sB' sL' sR' m1 m2
    H1 H2 -> -> DW DL HW HL HsF HsB HsL HsR HF Hfin MF MB ML MR MFl.
  revert Hfin.
  rewrite (Double_calculations_holds _ _ _ _ _ _ _ _ H1),
    (Double_calculations_holds _ _ _ _ _ _ _ _ H2). cbv zeta.
  cbn [plotArea groundCoverage buildableWidth buildableLength totalBUA far].
  unfold num_le.
  assert (Mw : le (Math_max (Fin 0) (Fin W - Fin sL' - Fin sR')%double)
                  (Math_max (Fin 0) (Fin W - Fin sL - Fin sR)%double) = true).
  { apply clamp_monotone. apply sub64_monotone; [| exact MR].
    apply sub64_monotone; [| exact ML]. apply le_Fin. lra. }
  assert (Ml : le (Math_max (Fin 0) (Fin L - Fin sF' - Fin sB')%double)
                  (Math_max (Fin 0) (Fin L - Fin sF - Fin sB)%double) = true).
  { apply clamp_monotone. apply sub64_monotone; [| exact MB].
    apply sub64_monotone; [| exact MF]. apply le_Fin. lra. }
  revert Mw Ml.
  destruct (Double_clamp_bounds W sL sR DW HW HsL HsR) as (bw & -> & Hbw).
  destruct (Double_clamp_bounds L sF sB DL HL HsF HsB) as (bl & -> & Hbl).
  destruct (Double_clamp_bounds W sL' sR' DW HW ltac:(lra) ltac:(lra))
    as (bw' & -> & Hbw').
  destruct (Double_clamp_bounds L sF' sB' DL HL ltac:(lra) ltac:(lra))
    as (bl' & -> & Hbl').
  intros Mw Ml Hfin.
  split; [exact Mw |]. split; [exact Ml |].
  apply (le_Fin bw' bw) in Mw. apply (le_Fin bl' bl) in Ml.
  destruct (Fin W * Fin L)%double as [p | | |] eqn:Hp; try contradiction.
  destruct (Double_coverage_bounds W L bw bl p Hbw Hbl Hp)
    as (g & c & Eg & Hg & Ec & Hc).
  destruct (Double_coverage_bounds W L bw' bl' p Hbw' Hbl' Hp)
    as (g' & c' & Eg' & Hg' & Ec' & Hc').
  assert (Mg : g' <= g).
  { apply (le_Fin g' g). rewrite <- Eg, <- Eg', !Double_mul_Fin.
    apply round64_monotone. nra. }
  rewrite Eg, Eg'.
  assert (Mt : le (Fin g' * Fin F')%double (Fin g * Fin F)%double = true).
  { rewrite !Double_mul_Fin. apply round64_monotone. nra. }
  split; [exact Mt |].
  destruct (gt (Fin p) (Fin 0)) eqn:Hpos.
  - apply gt_Fin in Hpos. split.
    + rewrite !Double_div_Fin by exact Hpos.
      assert (Mq : g' / p <= g / p).
      { apply Qmult_le_compat_r; [exact Mg |].
        apply Qlt_le_weak, Qinv_lt_0_compat. exact Hpos. }
      destruct (round64_between 0 1 (g / p) is_double_0 is_double_1)
        as (q & Eq & Hq).
      { split; [apply Qle_shift_div_l; lra | apply Qle_shift_div_r; lra]. }
      destruct (round64_between 0 1 (g' / p) is_double_0 is_double_1)
        as (q' & Eq' & Hq').
      { split; [apply Qle_shift_div_l; lra | apply Qle_shift_div_r; lra]. }
      assert (Mq' : q' <= q).
      { apply (le_Fin q' q). rewrite <- Eq, <- Eq'. apply round64_monotone.
        exact Mq. }
      rewrite Eq, Eq', !Double_mul_Fin. apply round64_monotone. lra.
    + apply div64_monotone; assumption.
  - split; reflexivity.
Qed.

Lemma metrics_monotone_witness :
  num_le
    (groundCoverage
       (Double.calculations
          (<["setbackFront" := VNum (Fin 25)]> App.initial_inputs)))
    (groundCoverage (Double.calculations App.initial_inputs)).
Proof.
  assert (H1 : dimensions App.initial_inputs 30 60 10 5 5 5 5)
    by (repeat split).
  assert (H2 : dimensions (<["setbackFront" := VNum (Fin 25)]> App.initial_inputs)
                 30 60 25 5 5 5 5) by (repeat split).
  assert (D30 : is_double 30) by (vm_compute; reflexivity).
  assert (D60 : is_double 60) by (vm_compute; reflexivity).
  destruct (metrics_monotone _ _ 30 60 5 5 10 5 5 5 25 5 5 5 _ _ H1 H2
              eq_refl eq_refl D30 D60
              ltac:(discriminate) ltac:(discriminate) ltac:(discriminate)
              ltac:(discriminate) ltac:(discriminate) ltac:(discriminate)
              ltac:(discriminate) I
              ltac:(discriminate) ltac:(discriminate) ltac:(discriminate)
              ltac:(discriminate) ltac:(discriminate))
    as (_ & _ & _ & H & _).
  exact H.
Defined.

(** ** Changes of a field *)

Lemma prop_insert_ne (o : gmap string jsval) (k k' : string) (v : jsval) :
  k <> k' -> prop (<[k := v]> o) k' = prop o k'.
Proof. intros H. unfold prop. rewrite lookup_insert_ne by exact H. reflexivity. Qed.

Lemma prop_insert_eq (o : gmap string jsval) (k : string) (v : jsval) :
  prop (<[k := v]> o) k = v.
Proof. unfold prop. rewrite lookup_insert_eq. reflexivity. Qed.

Lemma calculations_insert (o : gmap string jsval) (k : string) (v : jsval) :
  ~ In k metric_fields ->
  PlotDiagramApp.calculations (<[k := v]> o) = PlotDiagramApp.calculations o.
Proof.
  intros Hk. unfold PlotDiagramApp.calculations.
  rewrite !prop_insert_ne; [reflexivity | ..];
    intros ->; apply Hk; cbn [metric_fields In]; tauto.
Qed.

Lemma scale_insert (o : gmap string jsval) (k : string) (v : jsval) :
  ~ In k extent_fields ->
  PlotDiagramApp.totalWidthFt (<[k := v]> o) = PlotDiagramApp.totalWidthFt o
  /\ PlotDiagramApp.totalHeightFt (<[k := v]> o) = PlotDiagramApp.totalHeightFt o
  /\ PlotDiagramApp.scale (<[k := v]> o) = PlotDiagramApp.scale o.
Proof.
  intros Hk.
  unfold PlotDiagramApp.scale, PlotDiagramApp.totalWidthFt,
    PlotDiagramApp.totalHeightFt.
  rewrite !prop_insert_ne; [repeat split | ..];
    intros ->; apply Hk; cbn [extent_fields In]; tauto.
Qed.

(** X4.  A change of a field the calculator does not read (road width, the
    parking and staircase fields, the toggles, any other name) leaves all
    six metrics as they are; a change of a field other than plot width, plot
    length and road width leaves both extents and the scale of the drawing
    as they are.  In particular no checkbox of the second variant changes
    the metrics or the scale. *)
Theorem metrics_and_scale_frame :
  forall (parseFloat : string -> num) (inputs : gmap string jsval) (e : target),
    (~ In (name e) metric_fields ->
     PlotDiagramApp.calculations (PlotDiagramApp.handleChange parseFloat inputs e)
     = PlotDiagramApp.calculations inputs
     /\ App.calculations (App.handleChange parseFloat inputs e)
        = App.calculations inputs)
    /\ (~ In (name e) extent_fields ->
        PlotDiagramApp.scale (PlotDiagramApp.handleChange parseFloat inputs e)
        = PlotDiagramApp.scale inputs
        /\ App.scale (App.handleChange parseFloat inputs e) = App.scale inputs
        /\ App.totalWidthFt (App.handleChange parseFloat inputs e)
           = App.totalWidthFt inputs
        /\ App.totalHeightFt (App.handleChange parseFloat inputs e)
           = App.totalHeightFt inputs)
    /\ (In (name e) App.checkboxes ->
        App.calculations (App.handleChange parseFloat inputs e)
        = App.calculations inputs
        /\ App.scale (App.handleChange parseFloat inputs e) = App.scale inputs).
Proof.
  intros parseFloat inputs e. split; [| split].
  - intros Hk. split.
    + apply calculations_insert. exact Hk.
    + change App.calculations with PlotDiagramApp.calculations.
      apply calculations_insert. exact Hk.
  - intros Hk. unfold PlotDiagramApp.handleChange, App.handleChange.
    change App.scale with PlotDiagramApp.scale.
    change App.totalWidthFt with PlotDiagramApp.totalWidthFt.
    change App.totalHeightFt with PlotDiagramApp.totalHeightFt.
    repeat split; apply scale_insert; exact Hk.
  - intros Hk. unfold App.handleChange.
    change App.calculations with PlotDiagramApp.calculations.
    change App.scale with PlotDiagramApp.scale. split.
    + apply calculations_insert. intros Hm.
      cbn [App.checkboxes metric_fields In] in Hk, Hm.
      destruct Hk as [Hk | [Hk | []]]; rewrite <- Hk in Hm;
        repeat (destruct Hm as [Hm | Hm]; [discriminate Hm |]); destruct Hm.
    + apply scale_insert. intros Hm.
      cbn [App.checkboxes extent_fields In] in Hk, Hm.
      destruct Hk as [Hk | [Hk | []]]; rewrite <- Hk in Hm;
        repeat (destruct Hm as [Hm | Hm]; [discriminate Hm |]); destruct Hm.
Qed.

Lemma metrics_and_scale_frame_witness :
  App.calculations
    (App.handleChange (fun _ => Fin 12) App.initial_inputs
       (Target "roadWidth" "12" "number" false))
  = App.calculations App.initial_inputs.
Proof.
  apply (proj1 (metrics_and_scale_frame (fun _ => Fin 12) App.initial_inputs
                  (Target "roadWidth" "12" "number" false))).
  cbn [name metric_fields In]. intros H.
  repeat (destruct H as [H | H]; [discriminate H |]). destruct H.
Defined.

(** X5.  Changes compose as writes to a record: a second change of the same
    field overwrites the first, changes of different fields commute, and
    entering the positive number a field already holds leaves the inputs
    unchanged. *)
Theorem handleChange_composes :
  forall (parseFloat : string -> num) (inputs : gmap string jsval)
         (e1 e2 : target),
    (name e1 = name e2 ->
     PlotDiagramApp.handleChange parseFloat
       (PlotDiagramApp.handleChange parseFloat inputs e1) e2
     = PlotDiagramApp.handleChange parseFloat inputs e2
     /\ App.handleChange parseFloat (App.handleChange parseFloat inputs e1) e2
        = App.handleChange parseFloat inputs e2)
    /\ (name e1 <> name e2 ->
        PlotDiagramApp.handleChange parseFloat
          (PlotDiagramApp.handleChange parseFloat inputs e1) e2
        = PlotDiagramApp.handleChange parseFloat
            (PlotDiagramApp.handleChange parseFloat inputs e2) e1
        /\ App.handleChange parseFloat (App.handleChange parseFloat inputs e1) e2
           = App.handleChange parseFloat (App.handleChange parseFloat inputs e2) e1)
    /\ (forall q : Q,
          0 < q -> parseFloat (value e1) = Fin q ->
          inputs !! name e1 = Some (VNum (Fin q)) ->
          PlotDiagramApp.handleChange parseFloat inputs e1 = inputs
          /\ (type e1 <> "checkbox" ->
              App.handleChange parseFloat inputs e1 = inputs)).
Proof.
  intros parseFloat inputs e1 e2. split; [| split].
  - intros E. unfold PlotDiagramApp.handleChange, App.handleChange.
    rewrite E. split; apply insert_insert_eq.
  - intros Hne. unfold PlotDiagramApp.handleChange, App.handleChange.
    split; apply insert_insert_ne; congruence.
  - intros q Hq Hp Hl.
    assert (Hs : Math_max (Fin 0) (or_else (parseFloat (value e1)) (Fin 0))
                 = Fin q).
    { rewrite Hp. unfold or_else. cbn [truthy].
      apply Qgt_alt in Hq. rewrite Hq. cbn [Math_max].
      unfold Qmax, GenericMinMax.gmax.
      assert (Hc : (0 ?= q) = Lt) by (apply Qlt_alt; apply Qgt_alt; exact Hq).
      rewrite Hc. reflexivity. }
    unfold PlotDiagramApp.handleChange, App.handleChange. rewrite Hs. split.
    + apply insert_id. exact Hl.
    + intros Hty. destruct (String.eqb_spec (type e1) "checkbox");
        [contradiction |]. apply insert_id. exact Hl.
Qed.

Lemma handleChange_composes_witness :
  App.handleChange (fun _ => Fin 30) App.initial_inputs
    (Target "plotWidth" "30" "number" false)
  = App.initial_inputs.
Proof.
  apply (proj2 (proj2 (handleChange_composes (fun _ => Fin 30) App.initial_inputs
                         (Target "plotWidth" "30" "number" false)
                         (Target "plotWidth" "30" "number" false)))
           30).
  - reflexivity.
  - reflexivity.
  - reflexivity.
  - discriminate.
Defined.

(** ** The toggles of the first variant *)



(** X7.  A toggle changes the drawing by its own rectangle only: after
    [handleToggle] for [parking] (for [staircase]) the output is the
    placeholder if it was, and otherwise an [<svg>] of the same size whose
    children other than the parking (staircase) rectangle are the same, in
    the same order. *)
Theorem toggle_changes_own_rectangle :
  forall (inputs : gmap string jsval) (buildable : metrics)
         (elements : gmap string jsval) (k colour : string),
    (k = "parking" /\ colour = parking_fill)
    \/ (k = "staircase" /\ colour = staircase_fill) ->
    let before := PlotDiagramApp.PlotDiagramSVG inputs buildable elements in
    let after :=
      PlotDiagramApp.PlotDiagramSVG inputs buildable
        (PlotDiagramApp.handleToggle elements k) in
    (forall message, before = Placeholder message -> after = before)
    /\ (forall sw sh t children,
          before = Svg sw sh t children ->
          exists children',
            after = Svg sw sh t children'
            /\ without colour children' = without colour children).
Proof.
  intros inputs buildable elements k colour Hk before after.
  subst before after. unfold PlotDiagramApp.PlotDiagramSVG.
  destruct (le (PlotDiagramApp.totalWidthFt inputs) (Fin 0)
            || le (PlotDiagramApp.totalHeightFt inputs) (Fin 0)).
  - split; [reflexivity |]. intros sw sh t children H. discriminate H.
  - split; [intros message H; discriminate H |].
    intros sw sh t children H. injection H as <- <- <- <-.
    eexists. split; [reflexivity |].
    unfold PlotDiagramApp.handleToggle.
    destruct Hk as [[-> ->] | [-> ->]].
    + rewrite (prop_insert_ne elements "parking" "staircase") by discriminate.
      rewrite prop_insert_eq. cbn [ToBoolean].
      destruct (ToBoolean (prop elements "parking")),
        (ToBoolean (prop elements "staircase")),
        (gt (ToNumber (prop inputs "parkingWidth")) (Fin 0)),
        (gt (ToNumber (prop inputs "parkingLength")) (Fin 0));
        reflexivity.
    + rewrite (prop_insert_ne elements "staircase" "parking") by discriminate.
      rewrite prop_insert_eq. cbn [ToBoolean].
      destruct (ToBoolean (prop elements "parking")),
        (ToBoolean (prop elements "staircase")),
        (gt (ToNumber (prop inputs "parkingWidth")) (Fin 0)),
        (gt (ToNumber (prop inputs "parkingLength")) (Fin 0));
        reflexivity.
Qed.

Lemma toggle_changes_own_rectangle_witness :
  exists sw sh t children children',
    PlotDiagramApp.PlotDiagramSVG PlotDiagramApp.initial_inputs
      (PlotDiagramApp.calculations PlotDiagramApp.initial_inputs)
      (PlotDiagramApp.handleToggle PlotDiagramApp.initial_elements "parking")
    = Svg sw sh t children'
    /\ PlotDiagramApp.PlotDiagramSVG PlotDiagramApp.initial_inputs
         (PlotDiagramApp.calculations PlotDiagramApp.initial_inputs)
         PlotDiagramApp.initial_elements
       = Svg sw sh t children
    /\ without parking_fill children' = without parking_fill children.
Proof.
  assert (E : exists sw sh t children,
             PlotDiagramApp.PlotDiagramSVG PlotDiagramApp.initial_inputs
               (PlotDiagramApp.calculations PlotDiagramApp.initial_inputs)
               PlotDiagramApp.initial_elements
             = Svg sw sh t children).
  { do 4 eexists. vm_compute. reflexivity. }
  destruct E as (sw & sh & t & children & E).
  destruct (proj2 (toggle_changes_own_rectangle PlotDiagramApp.initial_inputs
                     (PlotDiagramApp.calculations PlotDiagramApp.initial_inputs)
                     PlotDiagramApp.initial_elements "parking" parking_fill
                     (or_introl (conj eq_refl eq_refl)))
              sw sh t children E) as (children' & E' & Hw).
  exists sw, sh, t, children, children'. repeat split; assumption.
Defined.

(** ** The rectangles of a drawing with positive extents *)

Lemma holds_prop (o : gmap string jsval) (k : string) (q : Q) :
  holds o k q -> prop o k = VNum (Fin q).
Proof. unfold holds, prop. intros ->. reflexivity. Qed.

Lemma In_rects (es : list element) (r : rect) :
  In r (rects es) <-> In (ERect r) es.
Proof.
  unfold rects. induction es as [| e es IH]; [reflexivity |].
  destruct e as [r' | |]; cbn; rewrite IH; intuition congruence.
Qed.

Lemma drawn_rects (colour : string) (out : rendered) (r : rect) :
  drawn colour out r <-> In r (rects (primitives out)) /\ fill r = colour.
Proof. unfold drawn. rewrite In_rects. reflexivity. Qed.

(** Find the rectangle [r] of [H : In r l] with the fill of [Hfill] in an
    evaluated list of rectangles. *)
Ltac find_rect H Hfill :=
  repeat match type of H with
    | In _ (_ ++ _) => apply in_app_or in H; destruct H as [H | H]
    | In _ (if ?c then _ else _) => destruct c eqn:?
    | In _ (_ :: _) =>
        destruct H as [H | H]; [subst; try discriminate Hfill |]
    | In _ [] => destruct H
    end.

Section Layout.

Variables (inputs : gmap string jsval) (W L R sF sB sL sR F pw pl : Q).
Variables (tw tl tx ty : Q).
Hypothesis Hlay : layout inputs W L R sF sB sL sR F pw pl.
Hypothesis Hst : staircase inputs tw tl tx ty.
Hypothesis HW : 0 < W.
Hypothesis HH : 0 < L + R.

(** Rewrite every field read and the scale to their finite values. *)
Ltac evaluate_layout :=
  destruct Hlay as ((HpW & HpL & HsF & HsB & HsL & HsR & HF) & HR & Hpw & Hpl);
  rewrite ?(calculations_refines inputs W L sF sB sL sR F
              (conj HpW (conj HpL (conj HsF (conj HsB (conj HsL (conj HsR HF)))))));
  cbv zeta;
  cbn [buildableWidth buildableLength Spec.metrics Spec.buildableWidth
       Spec.buildableLength];
  rewrite ?(scale_holds inputs W L R HpW HpL HR HW HH);
  rewrite ?(proj1 (extents_holds inputs W L R HpW HpL HR)),
    ?(proj2 (extents_holds inputs W L R HpW HpL HR));
  rewrite ?(holds_prop _ _ _ HpW), ?(holds_prop _ _ _ HpL), ?(holds_prop _ _ _ HsF),
    ?(holds_prop _ _ _ HsB), ?(holds_prop _ _ _ HsL), ?(holds_prop _ _ _ HsR),
    ?(holds_prop _ _ _ HF), ?(holds_prop _ _ _ HR), ?(holds_prop _ _ _ Hpw),
    ?(holds_prop _ _ _ Hpl);
  cbn [ToNumber mul add sub];
  rewrite ?div_Fin by (intros Hz; discriminate Hz).

(** The rectangles the first variant draws, in document order. *)
Lemma A_rects_eval (elements : gmap string jsval) :
  let s := Qmin (500 / W) (500 / (L + R)) in
  let bw := Qmax 0 (W - sL - sR) in
  let bl := Qmax 0 (L - sF - sB) in
  rects (primitives (PlotDiagramApp.PlotDiagramSVG inputs
                       (PlotDiagramApp.calculations inputs) elements))
  = [ Rect (Fin 0) (Fin 0) (Fin (W * s)) (Fin (L * s)) "#a7f3d0";
      Rect (Fin 0) (Fin (L * s)) (Fin (W * s)) (Fin (R * s)) "#e5e7eb";
      Rect (Fin (sL * s)) (Fin (sB * s)) (Fin (bw * s)) (Fin (bl * s)) "#bfdbfe" ]
    ++ (if ToBoolean (prop elements "parking")
           && gt (Fin pw) (Fin 0) && gt (Fin pl) (Fin 0)
        then [ Rect (Fin (sL * s + (bw * s - pw * s) / 2))
                    (Fin (sB * s + bl * s - pl * s))
                    (Fin (pw * s)) (Fin (pl * s)) "#fef08a" ]
        else [])
    ++ (if ToBoolean (prop elements "staircase")
        then [ Rect (Fin (sL * s + 10)) (Fin (sB * s + 10))
                    (Fin (8 * s)) (Fin (12 * s)) "#f87171" ]
        else []).
Proof.
  cbv zeta. unfold PlotDiagramApp.PlotDiagramSVG.
  rewrite (guard_passes inputs W L R ltac:(apply Hlay) ltac:(apply Hlay)
             ltac:(apply Hlay) HW HH).
  evaluate_layout.
  destruct (ToBoolean (prop elements "parking")
            && gt (Fin pw) (Fin 0) && gt (Fin pl) (Fin 0)),
    (ToBoolean (prop elements "staircase")); reflexivity.
Qed.

(** The rectangles the second variant draws, in document order. *)
Lemma B_rects_eval :
  let s := Qmin (500 / W) (500 / (L + R)) in
  let bw := Qmax 0 (W - sL - sR) in
  let bl := Qmax 0 (L - sF - sB) in
  rects (primitives (App.PlotDiagramSVG inputs (App.calculations inputs)))
  = [ Rect (Fin 0) (Fin 0) (Fin (W * s)) (Fin (L * s)) "#a7f3d0";
      Rect (Fin 0) (Fin (L * s)) (Fin (W * s)) (Fin (R * s)) "#e5e7eb";
      Rect (Fin (sL * s)) (Fin (sB * s)) (Fin (bw * s)) (Fin (bl * s)) "#bfdbfe" ]
    ++ (if ToBoolean (prop inputs "addParking")
           && gt (Fin pw) (Fin 0) && gt (Fin pl) (Fin 0)
        then [ Rect (Fin (sL * s + (bw * s - pw * s) / 2))
                    (Fin (sB * s + bl * s - pl * s))
                    (Fin (pw * s)) (Fin (pl * s)) "#fef08a" ]
        else [])
    ++ (if ToBoolean (prop inputs "addStaircase")
           && gt (Fin tw) (Fin 0) && gt (Fin tl) (Fin 0)
        then [ Rect (Fin (tx * s)) (Fin (ty * s))
                    (Fin (tw * s)) (Fin (tl * s)) "#f87171" ]
        else []).
Proof.
  cbv zeta. unfold App.PlotDiagramSVG.
  change App.calculations with PlotDiagramApp.calculations.
  change App.scale with PlotDiagramApp.scale.
  change App.totalWidthFt with PlotDiagramApp.totalWidthFt.
  change App.totalHeightFt with PlotDiagramApp.totalHeightFt.
  destruct Hst as (Htw & Htl & Htx & Hty).
  rewrite (prop_holds _ _ _ Htw), (prop_holds _ _ _ Htl),
    (prop_holds _ _ _ Htx), (prop_holds _ _ _ Hty).
  evaluate_layout.
  destruct (ToBoolean (prop inputs "addParking")
            && gt (Fin pw) (Fin 0) && gt (Fin pl) (Fin 0)),
    (ToBoolean (prop inputs "addStaircase")
     && gt (Fin tw) (Fin 0) && gt (Fin tl) (Fin 0)); reflexivity.
Qed.

End Layout.

(** The output of either variant on the inputs [inputs]; the second variant
    also reads the staircase fields. *)
Ltac either_output Hout :=
  destruct Hout as [[elements ->] | (tw & tl & tx & ty & Hst & ->)].

(** The plot, road, buildable and parking rectangles of either variant, on
    dimensions with positive extents. *)
Lemma core_rectangles (inputs : gmap string jsval)
    (W L R sF sB sL sR F pw pl : Q) (out : rendered) :
  layout inputs W L R sF sB sL sR F pw pl -> 0 < W -> 0 < L + R ->
  (exists elements,
      out = PlotDiagramApp.PlotDiagramSVG inputs
              (PlotDiagramApp.calculations inputs) elements)
  \/ (exists tw tl tx ty,
         staircase inputs tw tl tx ty
         /\ out = App.PlotDiagramSVG inputs (App.calculations inputs)) ->
  let s := Qmin (500 / W) (500 / (L + R)) in
  let bw := Qmax 0 (W - sL - sR) in
  let bl := Qmax 0 (L - sF - sB) in
  (forall r, drawn plot_fill out r
             <-> r = Rect (Fin 0) (Fin 0) (Fin (W * s)) (Fin (L * s)) "#a7f3d0")
  /\ (forall r, drawn road_fill out r
                <-> r = Rect (Fin 0) (Fin (L * s)) (Fin (W * s)) (Fin (R * s))
                          "#e5e7eb")
  /\ (forall r, drawn buildable_fill out r
                <-> r = Rect (Fin (sL * s)) (Fin (sB * s)) (Fin (bw * s))
                          (Fin (bl * s)) "#bfdbfe")
  /\ (forall r, drawn parking_fill out r ->
                0 < pw /\ 0 < pl
                /\ r = Rect (Fin (sL * s + (bw * s - pw * s) / 2))
                         (Fin (sB * s + bl * s - pl * s))
                         (Fin (pw * s)) (Fin (pl * s)) "#fef08a").
Proof.
  intros Hlay HW HH Hout s bw bl. subst s bw bl.
  assert (Hpark : forall t : bool,
             t && gt (Fin pw) (Fin 0) && gt (Fin pl) (Fin 0) = true ->
             0 < pw /\ 0 < pl).
  { intros t Ht. rewrite !andb_true_iff, !gt_Fin in Ht. tauto. }
  assert (Hcore : forall (rest : list rect) (r : rect) (colour : string)
                         (a b c : rect),
             fill a = "#a7f3d0" -> fill b = "#e5e7eb" -> fill c = "#bfdbfe" ->
             (forall r', In r' rest -> fill r' = "#fef08a" \/ fill r' = "#f87171") ->
             (colour = "#a7f3d0" /\ r = a) \/ (colour = "#e5e7eb" /\ r = b)
             \/ (colour = "#bfdbfe" /\ r = c) ->
             (In r ([a; b; c] ++ rest) /\ fill r = colour)).
  { intros rest r colour a b c Ha Hb Hc _ [[-> ->] | [[-> ->] | [-> ->]]];
      (split; [apply in_or_app; left; cbn [In]; auto | assumption]). }
  assert (Hconv : forall (rest : list rect) (r : rect) (colour : string)
                         (a b c : rect),
             fill a = "#a7f3d0" -> fill b = "#e5e7eb" -> fill c = "#bfdbfe" ->
             (forall r', In r' rest -> fill r' = "#fef08a" \/ fill r' = "#f87171") ->
             In r ([a; b; c] ++ rest) -> fill r = colour ->
             (colour = "#a7f3d0" -> r = a) /\ (colour = "#e5e7eb" -> r = b)
             /\ (colour = "#bfdbfe" -> r = c)).
  { intros rest r colour a b c Ha Hb Hc Hrest H Hfill.
    apply in_app_or in H. destruct H as [[<- | [<- | [<- | []]]] | H].
    - rewrite Ha in Hfill. subst colour. repeat split; intros E;
        try reflexivity; discriminate E.
    - rewrite Hb in Hfill. subst colour. repeat split; intros E;
        try reflexivity; discriminate E.
    - rewrite Hc in Hfill. subst colour. repeat split; intros E;
        try reflexivity; discriminate E.
    - destruct (Hrest r H) as [E | E]; rewrite E in Hfill; subst colour;
        repeat split; intros E'; discriminate E'. }
  assert (Hrest : forall (c1 c2 : bool) (p q r' : rect),
             fill p = "#fef08a" -> fill q = "#f87171" ->
             In r' ((if c1 then [p] else []) ++ (if c2 then [q] else [])) ->
             fill r' = "#fef08a" \/ fill r' = "#f87171").
  { intros c1 c2 p q r' Hp Hq H. destruct c1, c2; cbn in H;
      intuition (subst; auto). }
  either_output Hout.
  - pose proof (A_rects_eval inputs W L R sF sB sL sR F pw pl Hlay HW HH elements)
      as E. cbv zeta in E.
    unfold plot_fill, road_fill, buildable_fill, parking_fill.
    split; [| split; [| split]]; intros r; rewrite drawn_rects, E.
    + split.
      * intros [H Hf]. eapply Hconv in H; try exact Hf; try reflexivity;
          [apply H; reflexivity | intros r'; apply Hrest; reflexivity].
      * intros ->. apply Hcore; try reflexivity; auto.
        intros r'; apply Hrest; reflexivity.
    + split.
      * intros [H Hf]. eapply Hconv in H; try exact Hf; try reflexivity;
          [apply H; reflexivity | intros r'; apply Hrest; reflexivity].
      * intros ->. apply Hcore; try reflexivity; auto.
        intros r'; apply Hrest; reflexivity.
    + split.
      * intros [H Hf]. eapply Hconv in H; try exact Hf; try reflexivity;
          [apply H; reflexivity | intros r'; apply Hrest; reflexivity].
      * intros ->. apply Hcore; try reflexivity; auto.
        intros r'; apply Hrest; reflexivity.
    + intros [H Hfill]. find_rect H Hfill.
      match goal with
      | Hc : _ && _ && _ = true |- _ => destruct (Hpark _ Hc); auto
      end.
  - pose proof (B_rects_eval inputs W L R sF sB sL sR F pw pl tw tl tx ty
                  Hlay Hst HW HH) as E. cbv zeta in E.
    unfold plot_fill, road_fill, buildable_fill, parking_fill.
    split; [| split; [| split]]; intros r; rewrite drawn_rects, E.
    + split.
      * intros [H Hf]. eapply Hconv in H; try exact Hf; try reflexivity;
          [apply H; reflexivity | intros r'; apply Hrest; reflexivity].
      * intros ->. apply Hcore; try reflexivity; auto.
        intros r'; apply Hrest; reflexivity.
    + split.
      * intros [H Hf]. eapply Hconv in H; try exact Hf; try reflexivity;
          [apply H; reflexivity | intros r'; apply Hrest; reflexivity].
      * intros ->. apply Hcore; try reflexivity; auto.
        intros r'; apply Hrest; reflexivity.
    + split.
      * intros [H Hf]. eapply Hconv in H; try exact Hf; try reflexivity;
          [apply H; reflexivity | intros r'; apply Hrest; reflexivity].
      * intros ->. apply Hcore; try reflexivity; auto.
        intros r'; apply Hrest; reflexivity.
    + intros [H Hfill]. find_rect H Hfill.
      match goal with
      | Hc : _ && _ && _ = true |- _ => destruct (Hpark _ Hc); auto
      end.
Qed.



(** ** Sessions *)

(** The number inputs the second variant renders from its initial inputs. *)
Lemma App_initial_widgets :
  App_number_widgets App.initial_inputs = list_to_set number_inputs.
Proof. vm_compute. reflexivity. Qed.

(** What a session of the second variant keeps. *)
Lemma App_session_invariant (parseFloat : string -> num)
    (inputs : gmap string jsval) :
  App_session parseFloat inputs ->
  dom inputs = dom App.initial_inputs
  /\ staircase inputs 6 10 0 0
  /\ (exists p s : bool,
         inputs !! "addParking" = Some (VBool p)
         /\ inputs !! "addStaircase" = Some (VBool s))
  /\ (forall k, In k number_inputs -> nonneg_number inputs k).
Proof.
  induction 1 as [| inputs e Hs IH Hemit].
  - split; [reflexivity |]. split; [repeat split |].
    split; [exists true, true; split; reflexivity |].
    intros k Hk. apply initial_nonneg.
    cbn [App.numeric_fields]. apply in_or_app. left. exact Hk.
  - destruct IH as (Hdom & Hst & (p & s & Hp & Hs') & Hnum).
    assert (Hw : App_number_widgets inputs = list_to_set number_inputs).
    { unfold App_number_widgets. rewrite Hdom. apply App_initial_widgets. }
    unfold App.handleChange.
    destruct Hemit as [[Hty Hname] | [Hty Hname]]; rewrite Hty.
    + change (String.eqb "number" "checkbox") with false. cbv iota.
      rewrite Hw in Hname. apply elem_of_list_to_set, list_elem_of_In in Hname.
      assert (Hin : is_Some (inputs !! name e)).
      { destruct (Hnum _ Hname) as (n & Hn & _). rewrite Hn. eauto. }
      split; [rewrite dom_insert_lookup_L by exact Hin; exact Hdom |].
      cbn [number_inputs In] in Hname.
      split; [| split].
      * unfold staircase, holds in *.
        rewrite !lookup_insert_ne; [exact Hst | ..];
          intros E; rewrite E in Hname;
          repeat (destruct Hname as [Hname | Hname]; [discriminate Hname |]);
          destruct Hname.
      * exists p, s.
        rewrite !lookup_insert_ne; [split; assumption | ..];
          intros E; rewrite E in Hname;
          repeat (destruct Hname as [Hname | Hname]; [discriminate Hname |]);
          destruct Hname.
      * intros k Hk. apply nonneg_number_insert; [apply coerced_value | auto].
    + change (String.eqb "checkbox" "checkbox") with true. cbv iota.
      cbn [App.checkboxes In] in Hname.
      assert (Hin : is_Some (inputs !! name e)).
      { destruct Hname as [<- | [<- | []]]; [rewrite Hp | rewrite Hs']; eauto. }
      split; [rewrite dom_insert_lookup_L by exact Hin; exact Hdom |].
      split; [| split].
      * unfold staircase, holds in *.
        rewrite !lookup_insert_ne; [exact Hst | ..];
          intros E; rewrite E in Hname;
          repeat (destruct Hname as [Hname | Hname]; [discriminate Hname |]);
          destruct Hname.
      * destruct Hname as [<- | [<- | []]].
        -- exists (checked e), s. rewrite lookup_insert_eq.
           rewrite lookup_insert_ne by discriminate. split; [reflexivity | exact Hs'].
        -- exists p, (checked e). rewrite lookup_insert_eq.
           rewrite lookup_insert_ne by discriminate. split; [exact Hp | reflexivity].
      * intros k Hk. destruct (Hnum k Hk) as (n & Hn & Hge).
        exists n. split; [| exact Hge].
        rewrite lookup_insert_ne; [exact Hn |].
        intros E. rewrite <- E in Hk. cbn [number_inputs In] in Hk.
        destruct Hname as [Hname | [Hname | []]]; rewrite <- Hname in Hk;
          repeat (destruct Hk as [Hk | Hk]; [discriminate Hk |]); destruct Hk.
Qed.

(** X14.  The form of the second variant is closed: in every state a
    session reaches through the events of its own widgets, the inputs have
    the sixteen initial keys, the number inputs shown are exactly the ten
    dimension fields, and the events the form can emit are those of the ten
    number inputs and the two checkboxes.  No widget is bound to a staircase
    field, so staircase width, length and position stay 6, 10 and (0, 0);
    the two toggles always hold booleans and the ten dimension fields
    numbers that are [>= 0]. *)
Theorem App_form_is_closed :
  forall (parseFloat : string -> num) (inputs : gmap string jsval),
    App_session parseFloat inputs ->
    dom inputs = dom App.initial_inputs
    /\ App_number_widgets inputs = list_to_set number_inputs
    /\ (forall e : target, App_emits inputs e <-> App.from_widget e)
    /\ staircase inputs 6 10 0 0
    /\ (exists p s : bool,
           inputs !! "addParking" = Some (VBool p)
           /\ inputs !! "addStaircase" = Some (VBool s))
    /\ (forall k, In k number_inputs -> nonneg_number inputs k).
Proof.
  intros parseFloat inputs Hs.
  destruct (App_session_invariant parseFloat inputs Hs)
    as (Hdom & Hst & Htog & Hnum).
  assert (Hw : App_number_widgets inputs = list_to_set number_inputs).
  { unfold App_number_widgets. rewrite Hdom. apply App_initial_widgets. }
  split; [exact Hdom |]. split; [exact Hw |].
  split; [| split; [exact Hst | split; [exact Htog | exact Hnum]]].
  intros e. unfold App_emits, App.from_widget. rewrite Hw.
  rewrite elem_of_list_to_set, list_elem_of_In. reflexivity.
Qed.

Lemma App_form_is_closed_witness :
  staircase
    (App.handleChange (fun _ => Fin 40) App.initial_inputs
       (Target "plotWidth" "40" "number" false))
    6 10 0 0.
Proof.
  apply (App_form_is_closed (fun _ => Fin 40)).
  apply B_session_change; [apply B_session_start |].
  left. split; [reflexivity |].
  rewrite App_initial_widgets. apply elem_of_list_to_set, list_elem_of_In.
  cbn [name number_inputs In]. tauto.
Defined.

Lemma PlotDiagramApp_initial_widgets :
  PlotDiagramApp_number_widgets PlotDiagramApp.initial_inputs
  = list_to_set number_inputs.
Proof. vm_compute. reflexivity. Qed.

(** X15.  The form of the first variant shows one number input per key of
    the inputs.  In every state a session reaches through the events of
    these inputs the keys are the ten initial fields, each holding a number
    that is [>= 0]; a change event with any other name is not refused: it
    adds that name as a new field holding a number [>= 0], and with it a new
    input to the form. *)
Theorem PlotDiagramApp_form_fields :
  forall (parseFloat : string -> num) (inputs : gmap string jsval),
    PlotDiagramApp_session parseFloat inputs ->
    PlotDiagramApp_number_widgets inputs = list_to_set number_inputs
    /\ (forall k, In k number_inputs -> nonneg_number inputs k)
    /\ (forall e : target,
          ~ PlotDiagramApp_emits inputs e ->
          let inputs' := PlotDiagramApp.handleChange parseFloat inputs e in
          PlotDiagramApp_number_widgets inputs'
          = {[name e]} ∪ PlotDiagramApp_number_widgets inputs
          /\ PlotDiagramApp_number_widgets inputs'
             <> PlotDiagramApp_number_widgets inputs
          /\ nonneg_number inputs' (name e)).
Proof.
  intros parseFloat inputs Hs.
  assert (Hinv : PlotDiagramApp_number_widgets inputs = list_to_set number_inputs
                 /\ (forall k, In k number_inputs -> nonneg_number inputs k)).
  { induction Hs as [| inputs e Hs IH Hemit].
    - split; [apply PlotDiagramApp_initial_widgets |].
      intros k Hk. apply initial_nonneg. exact Hk.
    - destruct IH as [Hw Hnum]. unfold PlotDiagramApp_emits in Hemit.
      unfold PlotDiagramApp_number_widgets in *. split.
      + unfold PlotDiagramApp.handleChange.
        rewrite dom_insert_lookup_L; [exact Hw |].
        apply elem_of_dom. exact Hemit.
      + intros k Hk. apply A_handleChange_number. apply Hnum. exact Hk. }
  destruct Hinv as [Hw Hnum]. split; [exact Hw |]. split; [exact Hnum |].
  intros e Hout inputs'. subst inputs'.
  unfold PlotDiagramApp_emits, PlotDiagramApp_number_widgets in *.
  unfold PlotDiagramApp.handleChange. rewrite dom_insert_L.
  split; [reflexivity |]. split.
  - intros E. apply Hout. rewrite <- E.
    apply elem_of_union_l, elem_of_singleton. reflexivity.
  - eexists. rewrite lookup_insert_eq. split; [reflexivity |].
    apply coerced_value.
Qed.

Lemma PlotDiagramApp_form_fields_witness :
  nonneg_number
    (PlotDiagramApp.handleChange (fun _ => NaN) PlotDiagramApp.initial_inputs
       (Target "floors" "" "number" false))
    "plotWidth".
Proof.
  apply (PlotDiagramApp_form_fields (fun _ => NaN)).
  - apply A_session_change; [apply A_session_start |].
    unfold PlotDiagramApp_emits. rewrite PlotDiagramApp_initial_widgets.
    apply elem_of_list_to_set, list_elem_of_In. cbn [name number_inputs In]. tauto.
  - cbn [number_inputs In]. tauto.
Defined.

(** ** [formatLabel] *)

Lemma is_upper_not_space (c : ascii) : is_upper c = true -> c <> " "%char.
Proof. intros H ->. discriminate H. Qed.

Lemma space_not_upper : is_upper " " = false.
Proof. reflexivity. Qed.

(** On ASCII characters [toUpperCase] changes the lower-case letters only,
    and maps them one to one onto the capitals. *)
Lemma char_toUpperCase_spec (c : ascii) :
  (is_lower c = true ->
   is_upper (char_toUpperCase c) = true
   /\ nat_of_ascii (char_toUpperCase c) = (nat_of_ascii c - 32)%nat)
  /\ (is_lower c = false -> char_toUpperCase c = c).
Proof.
  unfold char_toUpperCase. destruct (is_lower c) eqn:E; split; try discriminate;
    try reflexivity. intros _.
  unfold is_lower in E. apply andb_true_iff in E. destruct E as [E1 E2].
  apply Nat.leb_le in E1. apply Nat.leb_le in E2.
  assert (Hn : nat_of_ascii (ascii_of_nat (nat_of_ascii c - 32))
               = (nat_of_ascii c - 32)%nat).
  { apply nat_ascii_embedding. lia. }
  split; [| exact Hn].
  unfold is_upper. rewrite Hn. apply andb_true_iff.
  split; apply Nat.leb_le; lia.
Qed.

Lemma char_toUpperCase_injective (c1 c2 : ascii) :
  is_upper c1 = false -> is_upper c2 = false ->
  char_toUpperCase c1 = char_toUpperCase c2 -> c1 = c2.
Proof.
  intros U1 U2 E.
  destruct (char_toUpperCase_spec c1) as [L1 N1].
  destruct (char_toUpperCase_spec c2) as [L2 N2].
  destruct (is_lower c1) eqn:E1, (is_lower c2) eqn:E2.
  - destruct (L1 eq_refl) as [_ H1]. destruct (L2 eq_refl) as [_ H2].
    rewrite E in H1. rewrite H1 in H2.
    unfold is_lower in E1, E2.
    apply andb_true_iff in E1. apply andb_true_iff in E2.
    destruct E1 as [E1 _]. destruct E2 as [E2 _].
    apply Nat.leb_le in E1. apply Nat.leb_le in E2.
    rewrite <- (ascii_nat_embedding c1), <- (ascii_nat_embedding c2).
    f_equal. lia.
  - destruct (L1 eq_refl) as [H1 _]. rewrite E, (N2 eq_refl) in H1. congruence.
  - destruct (L2 eq_refl) as [H2 _]. rewrite <- E, (N1 eq_refl) in H2. congruence.
  - rewrite (N1 eq_refl), (N2 eq_refl) in E. exact E.
Qed.

Lemma append_cons (c : ascii) (s t : string) :
  String.append (String c s) t = String c (String.append s t).
Proof. reflexivity. Qed.

Lemma length_append (s t : string) :
  String.length (String.append s t) = (String.length s + String.length t)%nat.
Proof.
  induction s as [| c s IH]; [reflexivity |].
  rewrite append_cons. cbn [String.length]. rewrite IH. reflexivity.
Qed.

Lemma append_injective_l (s1 s2 t : string) :
  String.append s1 t = String.append s2 t -> s1 = s2.
Proof.
  revert s2. induction s1 as [| c1 s1 IH]; intros [| c2 s2] E.
  - reflexivity.
  - apply (f_equal String.length) in E.
    rewrite !length_append in E. cbn [String.length] in E. lia.
  - apply (f_equal String.length) in E.
    rewrite !length_append in E. cbn [String.length] in E. lia.
  - rewrite !append_cons in E. injection E as -> E. f_equal. apply IH. exact E.
Qed.

(** The first character of [space_capitals key] is never a capital. *)
Lemma space_capitals_head (key : string) (h : ascii) (t : string) :
  space_capitals key = String h t -> is_upper h = false.
Proof.
  destruct key as [| c rest]; cbn [space_capitals]; [discriminate |].
  destruct (is_upper c) eqn:E; intros [= <- _]; [reflexivity | exact E].
Qed.

(** The inserted spaces can be told from those of the key: each stands
    before a capital, and nothing else does. *)
Lemma space_capitals_injective (k1 k2 : string) :
  space_capitals k1 = space_capitals k2 -> k1 = k2.
Proof.
  revert k2. induction k1 as [| c1 r1 IH]; intros [| c2 r2] E.
  - reflexivity.
  - cbn [space_capitals] in E. destruct (is_upper c2); discriminate E.
  - cbn [space_capitals] in E. destruct (is_upper c1); discriminate E.
  - cbn [space_capitals] in E.
    destruct (is_upper c1) eqn:U1, (is_upper c2) eqn:U2.
    + injection E as -> E. f_equal. apply IH; assumption.
    + injection E as _ E. symmetry in E.
      apply space_capitals_head in E. congruence.
    + injection E as _ E. apply space_capitals_head in E. congruence.
    + injection E as -> E. f_equal. apply IH; assumption.
Qed.

(** X16.  [formatLabel] never gives two keys the same label: it is one to
    one (on strings of ASCII characters, for which [toUpperCase] is
    modelled), also for keys that contain spaces or start with a capital,
    since an inserted space always stands before a capital and the first
    character of the spaced key is never a capital. *)
Theorem formatLabel_injective :
  forall k1 k2 : string,
    ascii_key k1 -> ascii_key k2 ->
    formatLabel k1 = formatLabel k2 -> k1 = k2.
Proof.
  intros k1 k2 _ _ E. unfold formatLabel in E.
  apply append_injective_l in E.
  apply space_capitals_injective.
  destruct (space_capitals k1) as [| h1 t1] eqn:E1,
    (space_capitals k2) as [| h2 t2] eqn:E2; cbn [capitalize] in E;
    try discriminate E; [reflexivity |].
  injection E as Eh ->. f_equal.
  apply char_toUpperCase_injective; [| | exact Eh].
  - apply (space_capitals_head k1 h1 t2 E1).
  - apply (space_capitals_head k2 h2 t2 E2).
Qed.

Lemma formatLabel_injective_witness :
  formatLabel "plotWidth" <> formatLabel "plotLength".
Proof.
  intros E.
  assert (H1 : ascii_key "plotWidth")
    by (cbn [ascii_key]; repeat split; try exact I; apply Nat.ltb_lt; reflexivity).
  assert (H2 : ascii_key "plotLength")
    by (cbn [ascii_key]; repeat split; try exact I; apply Nat.ltb_lt; reflexivity).
  apply (formatLabel_injective "plotWidth" "plotLength" H1 H2) in E.
  discriminate E.
Defined.

(** X17.  On a key of ASCII characters (for which [toUpperCase] is
    modelled) the label is the key with one space more per capital
    and the five characters of the suffix: its length is the length of the
    key plus the number of its capitals plus 5.  The label of a key that
    starts with a lower-case letter starts with the capital of that letter,
    and the label of a key that starts with a capital starts with a
    space. *)
Theorem formatLabel_shape :
  forall key : string,
    ascii_key key ->
    String.length (formatLabel key)
    = (String.length key + capitals key + 5)%nat
    /\ (forall c rest,
          key = String c rest -> is_lower c = true ->
          exists C label,
            formatLabel key = String C label
            /\ is_upper C = true
            /\ nat_of_ascii C = (nat_of_ascii c - 32)%nat)
    /\ (forall c rest,
          key = String c rest -> is_upper c = true ->
          exists label, formatLabel key = String " " (String c label)).
Proof.
  intros key _. split; [| split].
  - unfold formatLabel. rewrite length_append.
    assert (Hc : forall s, String.length (capitalize s) = String.length s)
      by (intros [| c s]; reflexivity).
    rewrite Hc. clear Hc. cbn [String.length].
    assert (Hs : String.length (space_capitals key)
                 = (String.length key + capitals key)%nat).
    { induction key as [| c rest IH]; [reflexivity |].
      cbn [space_capitals capitals String.length].
      destruct (is_upper c); cbn [String.length]; rewrite IH; lia. }
    rewrite Hs. reflexivity.
  - intros c rest -> Hl.
    assert (Hu : is_upper c = false).
    { unfold is_lower in Hl. unfold is_upper.
      apply andb_true_iff in Hl. destruct Hl as [Hl _]. apply Nat.leb_le in Hl.
      apply andb_false_iff. right. apply Nat.leb_gt. lia. }
    unfold formatLabel. cbn [space_capitals]. rewrite Hu.
    cbn [capitalize]. rewrite append_cons.
    do 2 eexists. split; [reflexivity |].
    apply (char_toUpperCase_spec c). exact Hl.
  - intros c rest -> Hu. unfold formatLabel. cbn [space_capitals]. rewrite Hu.
    cbn [capitalize]. rewrite !append_cons.
    eexists. reflexivity.
Qed.

Lemma formatLabel_shape_witness :
  exists C label,
    formatLabel "plotWidth" = String C label /\ is_upper C = true.
Proof.
  assert (H : ascii_key "plotWidth")
    by (cbn [ascii_key]; repeat split; try exact I; apply Nat.ltb_lt; reflexivity).
  destruct (proj1 (proj2 (formatLabel_shape "plotWidth" H)) "p"%char "lotWidth"
              eq_refl eq_refl) as (C & label & E & HC & _).
  exists C, label. split; assumption.
Defined.
